(** * mempool/cat/cache.go: the three tracking caches of the CAT mempool

    A shallow embedding of [LRUTxCache], [EvictedTxCache] and [SeenTxSet].
    Every method runs under the structure's own mutex, so a method call is
    one atomic transition of the structure's state: a method is a function
    from the state (and what it reads from outside: the clock, the order in
    which [range] visits a map) to its result and the next state.

    [types.TxKey], a 32-byte array compared byte by byte, is any countable
    type [TxKey].  Go's [int] and [int64] values are in [Z]: the code
    compares and copies them and never computes with them. *)

From stdpp Require Import gmap list strings.
From Stdlib Require Import ZArith Lia.

Local Open Scope Z_scope.

(** [time.Time] after [.UTC()]: the monotonic reading is stripped, what is
    left is an instant on the wall clock.  [Before] is the strict order. *)
Abbreviation Time := Z.
Definition Before (t u : Time) : bool := t <? u.

(** [uint16] peer identifiers; the code only compares and stores them. *)
Abbreviation uint16 := N.

(** ** container/list, as far as cache.go uses it

    An element is a heap cell; [*list.Element] is its address.  The list is
    the sequence of its cells, front first, each with the value it holds.
    [next_ptr] is the address the next allocation returns. *)
Module GoList.
Abbreviation ElemPtr := nat.

Section GoList.
Context {A : Type}.

Record List := mkList { elems : list (ElemPtr * A); next_ptr : nat }.

Definition New : List := mkList [] 0.

(** [Init] empties the list; cells allocated before are never reused. *)
Definition Init (l : List) : List := mkList [] (next_ptr l).

Definition Len (l : List) : Z := Z.of_nat (length (elems l)).

Definition Front (l : List) : option (ElemPtr * A) := head (elems l).

Definition PushBack (l : List) (v : A) : ElemPtr * List :=
  (next_ptr l, mkList (elems l ++ [(next_ptr l, v)]) (S (next_ptr l))).

(** [Remove(e)] unlinks [e] when [e] is a cell of this list. *)
Definition Remove (l : List) (e : ElemPtr) : List :=
  mkList (filter (λ x, x.1 ≠ e) (elems l)) (next_ptr l).

(** [MoveToBack(e)]: nothing when [e] is not a cell of this list or is
    already last; otherwise [e] is unlinked and linked after the last. *)
Definition MoveToBack (l : List) (e : ElemPtr) : List :=
  mkList (filter (λ x, x.1 ≠ e) (elems l) ++ filter (λ x, x.1 = e) (elems l))
         (next_ptr l).
End GoList.
Arguments List : clear implicits.
End GoList.

(** ** LRUTxCache

    [cacheMap] maps a key to the address of its cell in the list. *)
Module LRUTxCache.
Section LRUTxCache.
Context {TxKey : Type} `{Countable TxKey}.

(** The field [list] is spelled [list_]. *)
Record t := mk {
  staticSize : Z;
  cacheMap : gmap TxKey GoList.ElemPtr;
  list_ : GoList.List TxKey
}.

Definition NewLRUTxCache (cacheSize : Z) : t :=
  {| staticSize := cacheSize; cacheMap := ∅; list_ := GoList.New |}.

Definition Reset (c : t) : t :=
  {| staticSize := staticSize c; cacheMap := ∅;
     list_ := GoList.Init (list_ c) |}.

Definition Push (c : t) (txKey : TxKey) : bool * t :=
  if staticSize c =? 0 then (true, c) else
  match cacheMap c !! txKey with
  | Some moved =>
      (false, {| staticSize := staticSize c; cacheMap := cacheMap c;
                 list_ := GoList.MoveToBack (list_ c) moved |})
  | None =>
      let '(m, l) :=
        if GoList.Len (list_ c) >=? staticSize c then
          match GoList.Front (list_ c) with
          | Some (front, frontKey) =>
              (delete frontKey (cacheMap c), GoList.Remove (list_ c) front)
          | None => (cacheMap c, list_ c)
          end
        else (cacheMap c, list_ c) in
      let '(e, l') := GoList.PushBack l txKey in
      (true, {| staticSize := staticSize c; cacheMap := <[txKey := e]> m;
                list_ := l' |})
  end.

Definition Remove (c : t) (txKey : TxKey) : t :=
  let e := cacheMap c !! txKey in
  {| staticSize := staticSize c;
     cacheMap := delete txKey (cacheMap c);
     list_ := match e with
              | Some e => GoList.Remove (list_ c) e
              | None => list_ c
              end |}.

Definition Has (c : t) (txKey : TxKey) : bool :=
  if staticSize c =? 0 then false
  else bool_decide (is_Some (cacheMap c !! txKey)).

(** A caller's view: one method call, and a sequence of them. *)
Inductive op := OpPush (k : TxKey) | OpRemove (k : TxKey) | OpHas (k : TxKey) | OpReset.

Definition step (c : t) (o : op) : t :=
  match o with
  | OpPush k => (Push c k).2
  | OpRemove k => Remove c k
  | OpHas _ => c
  | OpReset => Reset c
  end.

Definition run (c : t) (ops : list op) : t := foldl step c ops.

Definition push_all (c : t) (ks : list TxKey) : t :=
  foldl (λ c k, (Push c k).2) c ks.

(** The recency order, least recently used first. *)
Definition keys (c : t) : list TxKey := (GoList.elems (list_ c)).*2.

(** What a [Push] of [k] does to the recency order [l] of a cache of
    capacity [n]. *)
Definition push_order (n : Z) (l : list TxKey) (k : TxKey) : list TxKey :=
  if decide (k ∈ l) then filter (λ k', k' ≠ k) l ++ [k]
  else (if Z.of_nat (length l) >=? n then tail l else l) ++ [k].

(** Map and list describe the same cells. *)
Record wf (c : t) : Prop := {
  wf_ptrs : NoDup (GoList.elems (list_ c)).*1;
  wf_keys : NoDup (keys c);
  wf_map : ∀ k p, cacheMap c !! k = Some p ↔ (p, k) ∈ GoList.elems (list_ c);
  wf_fresh : ∀ p k, (p, k) ∈ GoList.elems (list_ c) → (p < GoList.next_ptr (list_ c))%nat
}.

End LRUTxCache.
Arguments t : clear implicits.
Arguments t _ {_ _}.
Arguments op : clear implicits.
End LRUTxCache.

(** ** The transaction handed to [EvictedTxCache.Push] *)
Module WrappedTx.
Section WrappedTx.
Context {TxKey : Type}.

(** Modelled from the spec: [wrappedTx] is declared in another file of
    package cat.  [Push] reads the identifying key, the priority (signed
    integer), the gas wanted (signed integer), the sender (opaque string)
    and the size in bytes, the result of the method [size()]. *)
Record t := mk {
  key : TxKey;
  priority : Z;
  gasWanted : Z;
  sender : string;
  size : Z
}.
End WrappedTx.
Arguments t : clear implicits.
End WrappedTx.

Module EvictedTxInfo.
Record t := mk {
  timeEvicted : Time;
  priority : Z;
  gasWanted : Z;
  sender : string;
  size : Z
}.
End EvictedTxInfo.

(** ** EvictedTxCache *)
Module EvictedTxCache.
Section EvictedTxCache.
Context {TxKey : Type} `{Countable TxKey}.

Record t := mk {
  staticSize : Z;
  cache : gmap TxKey EvictedTxInfo.t
}.

Definition NewEvictedTxCache (size : Z) : t :=
  {| staticSize := size; cache := ∅ |}.

Definition Has (c : t) (txKey : TxKey) : bool :=
  bool_decide (is_Some (cache c !! txKey)).

Definition Get (c : t) (txKey : TxKey) : option EvictedTxInfo.t :=
  cache c !! txKey.

(** A [for key, info := range m] loop visits every entry of [m] once, in an
    order the runtime chooses: [visits m order] says that [order] is such a
    traversal of [m]. *)
Definition visits (m : gmap TxKey EvictedTxInfo.t)
    (order : list (TxKey * EvictedTxInfo.t)) : Prop :=
  order ≡ₚ map_to_list m.

(** The record [Push] stores for [wtx] when the clock reads [now]. *)
Definition info_of (wtx : WrappedTx.t TxKey) (now : Time) : EvictedTxInfo.t :=
  {| EvictedTxInfo.timeEvicted := now;
     EvictedTxInfo.priority := WrappedTx.priority wtx;
     EvictedTxInfo.gasWanted := WrappedTx.gasWanted wtx;
     EvictedTxInfo.sender := WrappedTx.sender wtx;
     EvictedTxInfo.size := WrappedTx.size wtx |}.

(** The loop of [Push]: [(oldestTxKey, oldestTxTime)] after the entries of
    [order] have been visited. *)
Definition scan_oldest (order : list (TxKey * EvictedTxInfo.t))
    (start : TxKey * Time) : TxKey * Time :=
  foldl (λ (acc : TxKey * Time) (e : TxKey * EvictedTxInfo.t),
           if Before (EvictedTxInfo.timeEvicted e.2) acc.2
           then (e.1, EvictedTxInfo.timeEvicted e.2) else acc)
        start order.

(** [now] is the first reading of the clock, [now'] the second (taken only
    when the cache is too large), [order] the traversal of the loop. *)
Definition Push (c : t) (wtx : WrappedTx.t TxKey) (now now' : Time)
    (order : list (TxKey * EvictedTxInfo.t)) : t :=
  let m := <[WrappedTx.key wtx := info_of wtx now]> (cache c) in
  if Z.of_nat (base.size m) >? staticSize c then
    let oldestTxKey := (scan_oldest order (WrappedTx.key wtx, now')).1 in
    {| staticSize := staticSize c; cache := delete oldestTxKey m |}
  else {| staticSize := staticSize c; cache := m |}.

Definition Pop (c : t) (txKey : TxKey) : option EvictedTxInfo.t * t :=
  match cache c !! txKey with
  | None => (None, c)
  | Some info =>
      (Some info, {| staticSize := staticSize c; cache := delete txKey (cache c) |})
  end.

Definition Prune (c : t) (limit : Time)
    (order : list (TxKey * EvictedTxInfo.t)) : t :=
  {| staticSize := staticSize c;
     cache := foldl (λ m (e : TxKey * EvictedTxInfo.t),
                       if Before (EvictedTxInfo.timeEvicted e.2) limit
                       then delete e.1 m else m)
                    (cache c) order |}.

Definition Reset (c : t) : t :=
  {| staticSize := staticSize c; cache := ∅ |}.

(** The states a cache built with [NewEvictedTxCache n] can be in. *)
Inductive reachable (n : Z) : t → Prop :=
| reach_new : reachable n (NewEvictedTxCache n)
| reach_push c wtx now now' order :
    reachable n c →
    visits (<[WrappedTx.key wtx := info_of wtx now]> (cache c)) order →
    reachable n (Push c wtx now now' order)
| reach_pop c txKey : reachable n c → reachable n (Pop c txKey).2
| reach_prune c limit order :
    reachable n c → visits (cache c) order → reachable n (Prune c limit order)
| reach_reset c : reachable n c → reachable n (Reset c).

(** One call of [Push] with everything it reads from outside. *)
Record push_call := mkCall {
  call_tx : WrappedTx.t TxKey;
  call_now : Time;
  call_now' : Time;
  call_order : list (TxKey * EvictedTxInfo.t)
}.

Definition call_key (pc : push_call) : TxKey := WrappedTx.key (call_tx pc).

Definition call_info (pc : push_call) : EvictedTxInfo.t :=
  info_of (call_tx pc) (call_now pc).

(** The map with the record of each call, later calls overwriting. *)
Definition records (m : gmap TxKey EvictedTxInfo.t) (calls : list push_call) :
    gmap TxKey EvictedTxInfo.t :=
  foldl (λ m pc, <[call_key pc := call_info pc]> m) m calls.

Definition push_one (c : t) (pc : push_call) : t :=
  Push c (call_tx pc) (call_now pc) (call_now' pc) (call_order pc).

Definition push_calls (c : t) (calls : list push_call) : t :=
  foldl push_one c calls.

(** The clock does not run backwards between the two readings of a call,
    and each call's traversal is one of the map it ranges over. *)
Fixpoint valid_calls (c : t) (calls : list push_call) : Prop :=
  match calls with
  | [] => True
  | pc :: rest =>
      call_now pc ≤ call_now' pc ∧
      visits (<[call_key pc := call_info pc]> (cache c)) (call_order pc) ∧
      valid_calls (push_one c pc) rest
  end.

(** Eviction times strictly increase along the calls. *)
Fixpoint increasing (calls : list push_call) : Prop :=
  match calls with
  | pc :: ((pc' :: _) as rest) => call_now pc < call_now pc' ∧ increasing rest
  | _ => True
  end.

End EvictedTxCache.
Arguments t : clear implicits.
Arguments t _ {_ _}.
Arguments push_call : clear implicits.
End EvictedTxCache.

(** ** SeenTxSet *)
Module SeenTxSet.
Section SeenTxSet.
Context {TxKey : Type} `{Countable TxKey}.

Record timestampedPeerSet := mkPeerSet {
  peers : gmap uint16 bool;
  time : Time
}.

Record t := mk { set : gmap TxKey timestampedPeerSet }.

Definition NewSeenTxSet : t := {| set := ∅ |}.

(** [seenSet.peers] is a reference to the map the record holds: the
    assignment through the copy [seenSet] updates the stored record. *)
Definition Add (s : t) (txKey : TxKey) (peer : uint16) (now : Time) : t :=
  if (peer =? 0)%N then s else
  match set s !! txKey with
  | None =>
      {| set := <[txKey := {| peers := {[peer := true]}; time := now |}]> (set s) |}
  | Some seenSet =>
      {| set := <[txKey := {| peers := <[peer := true]> (peers seenSet);
                             time := time seenSet |}]> (set s) |}
  end.

(** [order] is the traversal of [range seenSet.peers]; the loop returns in
    its first iteration. *)
Definition Pop (s : t) (txKey : TxKey) (order : list uint16) : uint16 * t :=
  match set s !! txKey with
  | Some seenSet =>
      match order with
      | peer :: _ =>
          (peer, {| set := <[txKey := {| peers := delete peer (peers seenSet);
                                        time := time seenSet |}]> (set s) |})
      | [] => (0%N, s)
      end
  | None => (0%N, s)
  end.

Definition RemoveKey (s : t) (txKey : TxKey) : t :=
  {| set := delete txKey (set s) |}.

Definition Remove (s : t) (txKey : TxKey) (peer : uint16) : t :=
  match set s !! txKey with
  | Some seenSet =>
      if (base.size (peers seenSet) =? 1)%nat
      then {| set := delete txKey (set s) |}
      else {| set := <[txKey := {| peers := delete peer (peers seenSet);
                                  time := time seenSet |}]> (set s) |}
  | None => s
  end.

Definition Prune (s : t) (limit : Time)
    (order : list (TxKey * timestampedPeerSet)) : t :=
  {| set := foldl (λ m (e : TxKey * timestampedPeerSet),
                     if Before (time e.2) limit then delete e.1 m else m)
                  (set s) order |}.

Definition Has (s : t) (txKey : TxKey) (peer : uint16) : bool :=
  match set s !! txKey with
  | None => false
  | Some seenSet => default false (peers seenSet !! peer)
  end.

(** The copy [Get] returns: [None] is the nil map. *)
Definition Get (s : t) (txKey : TxKey) : option (gset uint16) :=
  match set s !! txKey with
  | None => None
  | Some seenSet => Some (dom (peers seenSet))
  end.

Definition Len (s : t) : Z := Z.of_nat (base.size (set s)).

Definition Reset (s : t) : t := {| set := ∅ |}.

(** The traversals [range] can make of a peer map. *)
Definition visits_peers (m : gmap uint16 bool) (order : list uint16) : Prop :=
  order ≡ₚ (map_to_list m).*1.

(** No record holds the reserved peer 0. *)
Definition no_zero (s : t) : Prop :=
  ∀ k seenSet, set s !! k = Some seenSet → peers seenSet !! 0%N = None.

(** Every peer a record holds is mapped to [true]. *)
Definition peers_true (s : t) : Prop :=
  ∀ k seenSet p b,
    set s !! k = Some seenSet → peers seenSet !! p = Some b → b = true.

(** The states a set built with [NewSeenTxSet] can be in. *)
Inductive reachable : t → Prop :=
| reach_new : reachable NewSeenTxSet
| reach_add s txKey peer now : reachable s → reachable (Add s txKey peer now)
| reach_pop s txKey order :
    reachable s →
    (∀ seenSet, set s !! txKey = Some seenSet → visits_peers (peers seenSet) order) →
    reachable (Pop s txKey order).2
| reach_remove_key s txKey : reachable s → reachable (RemoveKey s txKey)
| reach_remove s txKey peer : reachable s → reachable (Remove s txKey peer)
| reach_prune s limit order :
    reachable s → order ≡ₚ map_to_list (set s) → reachable (Prune s limit order)
| reach_reset s : reachable s → reachable (Reset s).

End SeenTxSet.
Arguments t : clear implicits.
Arguments t _ {_ _}.
End SeenTxSet.

(** * Properties of LRUTxCache *)
Module LRUTxCacheSpec.
Import LRUTxCache.

(** ** Lists of cells *)
Section Cells.
Context {A : Type}.
Implicit Types (l : list (nat * A)) (p : nat) (k : A).

Lemma filter_keep_all {B} (P : B → Prop) `{∀ x, Decision (P x)} (l : list B) :
  Forall P l → filter P l = l.
Proof.
  induction 1 as [|x l Hx _ IH]; [done|].
  rewrite filter_cons_True by done. by rewrite IH.
Qed.

Lemma filter_drop_all {B} (P : B → Prop) `{∀ x, Decision (P x)} (l : list B) :
  Forall (λ x, ¬ P x) l → filter P l = [].
Proof.
  induction 1 as [|x l Hx _ IH]; [done|].
  by rewrite filter_cons_False.
Qed.

Lemma select_cell `{EqDecision A} p k l :
  NoDup l.*1 → (p, k) ∈ l → filter (λ x, x.1 = p) l = [(p, k)].
Proof.
  induction l as [|[q k'] l IH]; intros Hnd Hin; [by apply elem_of_nil in Hin|].
  rewrite fmap_cons, NoDup_cons in Hnd. destruct Hnd as [Hq Hnd].
  apply elem_of_cons in Hin as [Heq|Hin].
  - inversion Heq; subst. rewrite filter_cons_True by done.
    f_equal. apply filter_drop_all, Forall_forall. intros [q' k''] Hin' Hq'.
    simpl in Hq'. subst. apply Hq, list_elem_of_fmap. by exists (q, k'').
  - rewrite filter_cons_False; [by apply IH|].
    simpl. intros ->. apply Hq, list_elem_of_fmap. by exists (p, k).
Qed.

Lemma unlink_cell_keys `{EqDecision A} p k l :
  NoDup l.*1 → NoDup l.*2 → (p, k) ∈ l →
  (filter (λ x, x.1 ≠ p) l).*2 = filter (λ k', k' ≠ k) l.*2.
Proof.
  induction l as [|[q k'] l IH]; intros Hp Hk Hin; [done|].
  rewrite fmap_cons in Hp. rewrite fmap_cons in Hk.
  apply NoDup_cons in Hp as [Hq Hp]. apply NoDup_cons in Hk as [Hk' Hk].
  simpl in *.
  apply elem_of_cons in Hin as [Heq|Hin].
  - inversion Heq; subst.
    rewrite !filter_cons_False by (simpl; tauto).
    rewrite !filter_keep_all; [done| |].
    + apply Forall_forall. intros k'' Hin ->. done.
    + apply Forall_forall. intros [q' k''] Hin. simpl. intros ->.
      apply Hq, list_elem_of_fmap. by exists (q, k'').
  - assert (q ≠ p).
    { intros ->. apply Hq, list_elem_of_fmap. by exists (p, k). }
    assert (k' ≠ k).
    { intros ->. apply Hk', list_elem_of_fmap. by exists (p, k). }
    rewrite !filter_cons_True by done. rewrite fmap_cons. simpl.
    f_equal. by apply IH.
Qed.

Lemma NoDup_fmap_filter {B C} (f : B → C) (P : B → Prop) `{∀ x, Decision (P x)}
    (l : list B) :
  NoDup (f <$> l) → NoDup (f <$> filter P l).
Proof.
  induction l as [|x l IH]; [done|].
  rewrite fmap_cons. intros [Hx Hl]%NoDup_cons.
  rewrite filter_cons. destruct (decide (P x)); [|by apply IH].
  rewrite fmap_cons. apply NoDup_cons. split; [|by apply IH].
  intros (y & Hy & Hin)%list_elem_of_fmap.
  apply list_elem_of_filter in Hin as [_ Hin].
  apply Hx, list_elem_of_fmap. by exists y.
Qed.

Lemma cell_key_unique p k k' l :
  NoDup l.*1 → (p, k) ∈ l → (p, k') ∈ l → k = k'.
Proof.
  induction l as [|[q a] l IH]; [by intros _ ?%elem_of_nil|].
  rewrite fmap_cons. intros [Hq Hl]%NoDup_cons Hk Hk'. simpl in Hq.
  apply elem_of_cons in Hk as [Hk|Hk]; apply elem_of_cons in Hk' as [Hk'|Hk'].
  - congruence.
  - inversion Hk; subst. destruct Hq. apply list_elem_of_fmap. by exists (q, k').
  - inversion Hk'; subst. destruct Hq. apply list_elem_of_fmap. by exists (q, k).
  - by apply IH.
Qed.

Lemma move_to_back_perm p l :
  filter (λ x, x.1 ≠ p) l ++ filter (λ x, x.1 = p) l ≡ₚ l.
Proof.
  induction l as [|[q a] l IH]; [done|].
  rewrite !filter_cons. simpl.
  destruct (decide (q ≠ p)), (decide (q = p)); try congruence.
  - simpl. by rewrite IH.
  - by rewrite <- Permutation_middle, IH.
  - destruct (decide (q = p)); tauto.
Qed.
End Cells.

Section Props.
Context {TxKey : Type} `{Countable TxKey}.
Implicit Types (c : t TxKey) (k : TxKey) (p : GoList.ElemPtr).

Lemma wf_new n : wf (NewLRUTxCache (TxKey:=TxKey) n).
Proof.
  split; simpl.
  - constructor.
  - constructor.
  - intros k p. rewrite lookup_empty. split; [done|by intros ?%elem_of_nil].
  - by intros p k ?%elem_of_nil.
Qed.

Lemma wf_reset c : wf (Reset c).
Proof.
  split; simpl.
  - constructor.
  - constructor.
  - intros k p. rewrite lookup_empty. split; [done|by intros ?%elem_of_nil].
  - by intros p k ?%elem_of_nil.
Qed.

Lemma wf_mem c k : wf c → k ∈ keys c ↔ is_Some (cacheMap c !! k).
Proof.
  intros Hwf. unfold keys. rewrite list_elem_of_fmap. split.
  - intros ([p k'] & -> & Hin). exists p. by apply (wf_map c Hwf).
  - intros [p Hp]. exists (p, k). split; [done|]. by apply (wf_map c Hwf).
Qed.

Lemma Has_keys c k :
  wf c → staticSize c ≠ 0 → Has c k = bool_decide (k ∈ keys c).
Proof.
  intros Hwf Hn. unfold Has. destruct (Z.eqb_spec (staticSize c) 0); [done|].
  apply bool_decide_ext. symmetry. by apply wf_mem.
Qed.

(** Unlinking the cell of [k] and forgetting [k] in the map. *)
Lemma wf_unlink c k p :
  wf c → cacheMap c !! k = Some p →
  let c' := {| staticSize := staticSize c;
               cacheMap := delete k (cacheMap c);
               list_ := GoList.Remove (list_ c) p |} in
  wf c' ∧ keys c' = filter (λ k', k' ≠ k) (keys c).
Proof.
  intros Hwf Hp c'. pose proof (proj1 (wf_map c Hwf k p) Hp) as Hin.
  split; [split|]; unfold c', keys; simpl.
  - apply NoDup_fmap_filter, Hwf.
  - apply NoDup_fmap_filter, Hwf.
  - intros k' p'. rewrite list_elem_of_filter. simpl.
    rewrite lookup_delete. case_decide as Hk; subst.
    + split; [done|]. intros [Hne Hin'].
      pose proof (proj2 (wf_map c Hwf k' p') Hin'). congruence.
    + rewrite (wf_map c Hwf). split; [|tauto]. intros Hin'. split; [|done].
      intros ->. apply Hk. eapply cell_key_unique; [apply Hwf|done..].
  - intros p' k' [_ Hin']%list_elem_of_filter. by apply (wf_fresh c Hwf p' k').
  - apply unlink_cell_keys; [apply Hwf|apply Hwf|done].
Qed.

(** Linking a new cell for an absent key at the back. *)
Lemma wf_push_back c k :
  wf c → k ∉ keys c →
  let c' := {| staticSize := staticSize c;
               cacheMap := <[k := (GoList.PushBack (list_ c) k).1]> (cacheMap c);
               list_ := (GoList.PushBack (list_ c) k).2 |} in
  wf c' ∧ keys c' = keys c ++ [k].
Proof.
  intros Hwf Hk c'. split; [split|]; unfold c', keys; simpl.
  - rewrite fmap_app. apply NoDup_app. split; [apply Hwf|]. split.
    + intros p Hp ->%list_elem_of_singleton.
      apply list_elem_of_fmap in Hp as ([p k'] & Hp & Hin). simpl in Hp. subst.
      pose proof (wf_fresh c Hwf _ _ Hin). lia.
    + apply NoDup_singleton.
  - rewrite fmap_app. apply NoDup_app. split; [apply Hwf|]. split.
    + by intros k' Hin ->%list_elem_of_singleton.
    + apply NoDup_singleton.
  - intros k' p'. rewrite elem_of_app, list_elem_of_singleton.
    rewrite lookup_insert. case_decide as Hkk; subst.
    + split; [intros [= <-]; by right|].
      intros [Hin|[= -> ]]; [|done]. destruct Hk.
      apply list_elem_of_fmap. by exists (p', k').
    + rewrite (wf_map c Hwf). split; [by left|]. intros [Hin|[= ]]; [done|].
      congruence.
  - intros p k' [Hin|[= -> ->]%list_elem_of_singleton]%elem_of_app.
    + pose proof (wf_fresh c Hwf _ _ Hin). lia.
    + lia.
  - by rewrite fmap_app.
Qed.

(** Moving the cell of a present key to the back. *)
Lemma wf_move_to_back c k p :
  wf c → cacheMap c !! k = Some p →
  let c' := {| staticSize := staticSize c;
               cacheMap := cacheMap c;
               list_ := GoList.MoveToBack (list_ c) p |} in
  wf c' ∧ keys c' = filter (λ k', k' ≠ k) (keys c) ++ [k].
Proof.
  intros Hwf Hp c'. pose proof (proj1 (wf_map c Hwf k p) Hp) as Hin.
  assert (GoList.elems (list_ c') ≡ₚ GoList.elems (list_ c)) as Hperm
    by apply move_to_back_perm.
  split; [split|].
  - rewrite Hperm. apply Hwf.
  - unfold keys. rewrite Hperm. apply Hwf.
  - intros k' p'. rewrite Hperm. apply Hwf.
  - intros p' k'. rewrite Hperm. apply (wf_fresh c Hwf).
  - unfold keys, c'. simpl. rewrite fmap_app.
    rewrite (select_cell p k _ (wf_ptrs c Hwf) Hin).
    rewrite (unlink_cell_keys p k _ (wf_ptrs c Hwf) (wf_keys c Hwf) Hin). done.
Qed.

Lemma filter_head_key k (l : list TxKey) :
  NoDup (k :: l) → filter (λ k', k' ≠ k) (k :: l) = l.
Proof.
  intros [Hk _]%NoDup_cons. rewrite filter_cons_False by tauto.
  apply filter_keep_all, Forall_forall. by intros k' Hin ->.
Qed.

Lemma Push_spec c k :
  wf c → staticSize c ≠ 0 →
  wf (Push c k).2 ∧
  staticSize (Push c k).2 = staticSize c ∧
  keys (Push c k).2 = push_order (staticSize c) (keys c) k ∧
  (Push c k).1 = bool_decide (k ∉ keys c).
Proof.
  intros Hwf Hn. unfold Push, push_order.
  destruct (Z.eqb_spec (staticSize c) 0) as [|_]; [done|].
  destruct (cacheMap c !! k) as [p|] eqn:Hp.
  - assert (k ∈ keys c) as Hk by (apply wf_mem; eauto).
    destruct (wf_move_to_back c k p Hwf Hp) as [Hwf' Hkeys].
    rewrite decide_True by done. rewrite bool_decide_eq_false_2 by tauto.
    done.
  - assert (k ∉ keys c) as Hk.
    { rewrite wf_mem by done. rewrite Hp. by intros [? ?]. }
    rewrite decide_False by done. rewrite bool_decide_eq_true_2 by done.
    assert (GoList.Len (list_ c) = Z.of_nat (length (keys c))) as ->.
    { unfold GoList.Len, keys. by rewrite length_fmap. }
    destruct (Z.of_nat (length (keys c)) >=? staticSize c).
    + unfold GoList.Front.
      destruct (GoList.elems (list_ c)) as [|[front frontKey] rest] eqn:Hl.
      * destruct (wf_push_back c k Hwf Hk) as [Hwf' Hkeys].
        split; [exact Hwf'|]. split; [reflexivity|]. split; [|reflexivity].
        etransitivity; [exact Hkeys|].
        replace (keys c) with (@nil TxKey); [done|].
        unfold keys. by rewrite Hl.
      * assert (cacheMap c !! frontKey = Some front) as Hfront.
        { apply (wf_map c Hwf). rewrite Hl. apply elem_of_cons. by left. }
        destruct (wf_unlink c frontKey front Hwf Hfront) as [Hwf1 Hkeys1].
        assert (keys c = frontKey :: rest.*2) as Hkc.
        { unfold keys. by rewrite Hl. }
        rewrite Hkc, filter_head_key in Hkeys1
          by (rewrite <- Hkc; apply Hwf).
        match type of Hwf1 with wf ?c1 =>
          destruct (wf_push_back c1 k Hwf1) as [Hwf' Hkeys]
        end.
        { rewrite Hkeys1. intros Hin. apply Hk. rewrite Hkc.
          apply elem_of_cons. by right. }
        split; [exact Hwf'|]. split; [reflexivity|]. split; [|reflexivity].
        etransitivity; [exact Hkeys|]. by rewrite Hkeys1, Hkc.
    + destruct (wf_push_back c k Hwf Hk) as [Hwf' Hkeys]. done.
Qed.

Lemma Remove_spec c k :
  wf c → wf (Remove c k) ∧ staticSize (Remove c k) = staticSize c ∧
         keys (Remove c k) = filter (λ k', k' ≠ k) (keys c).
Proof.
  intros Hwf. unfold Remove. destruct (cacheMap c !! k) as [p|] eqn:Hp.
  - destruct (wf_unlink c k p Hwf Hp) as [Hwf' Hkeys]. done.
  - rewrite delete_id by done.
    assert (k ∉ keys c) as Hk.
    { rewrite wf_mem by done. rewrite Hp. by intros [? ?]. }
    split; [|split; [done|]].
    + destruct Hwf. by split.
    + unfold keys at 1. simpl. symmetry.
      apply filter_keep_all, Forall_forall. by intros k' Hin ->.
Qed.

Lemma step_spec c o :
  wf c → wf (step c o) ∧ staticSize (step c o) = staticSize c.
Proof.
  intros Hwf. destruct o as [k|k| |]; simpl.
  - destruct (Z.eq_dec (staticSize c) 0) as [Hz|Hz].
    + unfold Push. rewrite Hz. done.
    + destruct (Push_spec c k Hwf Hz) as (? & ? & _). done.
  - destruct (Remove_spec c k Hwf) as (? & ? & _). done.
  - done.
  - split; [apply wf_reset|done].
Qed.

Lemma run_spec ops c :
  wf c → wf (run c ops) ∧ staticSize (run c ops) = staticSize c.
Proof.
  revert c. induction ops as [|o ops IH]; intros c Hwf; [done|].
  simpl. destruct (step_spec c o Hwf) as [Hwf' Hn].
  destruct (IH _ Hwf') as [? ?]. split; [done|congruence].
Qed.

Lemma push_all_spec ks c :
  wf c → staticSize c ≠ 0 →
  wf (push_all c ks) ∧ staticSize (push_all c ks) = staticSize c ∧
  keys (push_all c ks) = foldl (push_order (staticSize c)) (keys c) ks.
Proof.
  revert c. induction ks as [|k ks IH]; intros c Hwf Hn; [done|].
  simpl. destruct (Push_spec c k Hwf Hn) as (Hwf' & Hn' & Hkeys & _).
  destruct (IH (Push c k).2 Hwf') as (? & ? & ?); [congruence|].
  split; [done|]. split; [congruence|]. congruence.
Qed.

(** Distinct keys that fit are kept in the order of their arrival. *)
Lemma push_order_fill n (ks l : list TxKey) :
  NoDup (l ++ ks) → Z.of_nat (length (l ++ ks)) ≤ n →
  foldl (push_order n) l ks = l ++ ks.
Proof.
  revert l. induction ks as [|k ks IH]; intros l Hnd Hlen.
  - by rewrite app_nil_r.
  - simpl.
    assert (l ++ k :: ks = (l ++ [k]) ++ ks) as Heq by (by rewrite <- app_assoc).
    rewrite Heq in Hnd, Hlen |- *.
    assert (k ∉ l) as Hk.
    { apply NoDup_app in Hnd as [Hnd _]. apply NoDup_app in Hnd as (_ & Hd & _).
      intros Hin. apply (Hd k Hin). by apply list_elem_of_singleton. }
    assert (push_order n l k = l ++ [k]) as ->; [|by apply IH].
    unfold push_order. rewrite decide_False by done.
    rewrite !length_app in Hlen. simpl in Hlen.
    destruct (Z.geb_spec (Z.of_nat (length l)) n); [lia|done].
Qed.

Lemma push_order_full n k0 (l : list TxKey) k :
  k ∉ k0 :: l → Z.of_nat (length (k0 :: l)) = n →
  push_order n (k0 :: l) k = l ++ [k].
Proof.
  intros Hk Hlen. unfold push_order. rewrite decide_False by done.
  destruct (Z.geb_spec (Z.of_nat (length (k0 :: l))) n); [done|lia].
Qed.

(** C1. A Dedup Cache of capacity [N > 0] into which [N + 1] distinct keys
    are pushed in order has evicted exactly the first of them, from the
    list and from the map: the list holds the other [N] keys in the order
    of their arrival, [Has] is true for exactly these keys, so false for
    the first key and true for each of the other [N]. *)
Theorem push_evicts_least_recent (N : Z) (ks : list TxKey) :
  0 < N → NoDup ks → Z.of_nat (length ks) = N + 1 →
  let c := push_all (NewLRUTxCache N) ks in
  keys c = tail ks ∧
  (∀ k, Has c k = bool_decide (k ∈ tail ks)) ∧
  (∀ k1, ks !! 0%nat = Some k1 → Has c k1 = false) ∧
  (∀ i k, (0 < i)%nat → ks !! i = Some k → Has c k = true).
Proof.
  intros HN Hnd Hlen c.
  destruct (push_all_spec ks (NewLRUTxCache N) (wf_new N)) as (Hwf & Hn & Hkeys);
    [simpl; lia|].
  fold c in Hwf, Hn, Hkeys. simpl in Hn, Hkeys.
  assert (keys c = tail ks) as Hc.
  { rewrite Hkeys. clear Hkeys Hwf Hn c.
    destruct ks as [|kl ks' _] using rev_ind; [simpl in Hlen; lia|].
    rewrite length_app in Hlen. simpl in Hlen.
    rewrite foldl_app. simpl. change (keys (NewLRUTxCache N)) with (@nil TxKey).
    rewrite (push_order_fill N ks' []); [|by apply NoDup_app in Hnd as [? _]|simpl; lia].
    simpl. destruct ks' as [|k0 l]; [simpl in Hlen; lia|].
    rewrite push_order_full; [done| |simpl in *; lia].
    apply NoDup_app in Hnd as (_ & Hd & _). intros Hin.
    apply (Hd kl Hin). by apply list_elem_of_singleton. }
  assert (∀ k, Has c k = bool_decide (k ∈ tail ks)) as Hhas.
  { intros k. rewrite Has_keys by (done || lia). by rewrite Hc. }
  split; [exact Hc|]. split; [exact Hhas|]. clear Hc.
  destruct ks as [|k1 rest]; [simpl in Hlen; lia|]. simpl in Hhas.
  apply NoDup_cons in Hnd as [Hk1 _]. split.
  - intros ? [= <-]. rewrite Hhas. by apply bool_decide_eq_false_2.
  - intros [|i] k Hi Hk; [lia|]. simpl in Hk. rewrite Hhas.
    apply bool_decide_eq_true_2. by eapply list_elem_of_lookup_2.
Qed.

(** C4, as far as the code goes.  In a Dedup Cache of capacity [N > 0],
    pushing a key that is present returns false, leaves the map and the
    length of the list as they were and makes the key the most recently
    used one.  When [k1], [k2] and the keys of [rest] are the [N] distinct
    keys pushed first (so [N] is at least 2), re-pushing [k1] and then
    pushing a new key evicts [k2]: [k1] and all the others stay, in the
    order [rest], [k1], new key.  When [N] is 1 and [k1] is the key pushed
    first, re-pushing [k1] and then pushing a new key evicts [k1]: the new
    key is the only key held. *)
Theorem repush_moves_to_back (N : Z) :
  0 < N →
  (∀ ops k,
     let c := run (NewLRUTxCache N) ops in
     Has c k = true →
     (Push c k).1 = false ∧
     cacheMap (Push c k).2 = cacheMap c ∧
     GoList.Len (list_ (Push c k).2) = GoList.Len (list_ c) ∧
     keys (Push c k).2 = filter (λ k', k' ≠ k) (keys c) ++ [k] ∧
     last (keys (Push c k).2) = Some k) ∧
  (∀ (k1 k2 : TxKey) rest knew,
     NoDup (k1 :: k2 :: rest ++ [knew]) →
     Z.of_nat (length (k1 :: k2 :: rest)) = N →
     let c0 := push_all (NewLRUTxCache N) (k1 :: k2 :: rest) in
     let c := (Push (Push c0 k1).2 knew).2 in
     (Push c0 k1).1 = false ∧
     Has c k2 = false ∧ Has c k1 = true ∧ Has c knew = true ∧
     (∀ k, k ∈ rest → Has c k = true) ∧
     keys c = rest ++ [k1; knew]) ∧
  (N = 1 →
     ∀ (k1 knew : TxKey), k1 ≠ knew →
     let c0 := push_all (NewLRUTxCache N) [k1] in
     let c := (Push (Push c0 k1).2 knew).2 in
     (Push c0 k1).1 = false ∧
     keys c = [knew] ∧ Has c k1 = false ∧ Has c knew = true).
Proof.
  intros HN. split; [|split].
  - intros ops k c Hhas.
    destruct (run_spec ops (NewLRUTxCache N) (wf_new N)) as [Hwf Hn].
    fold c in Hwf, Hn. simpl in Hn.
    rewrite Has_keys in Hhas by (done || lia).
    apply bool_decide_eq_true_1 in Hhas.
    destruct (Push_spec c k Hwf) as (_ & _ & Hkeys & Hret); [lia|].
    rewrite Hret, Hkeys. unfold push_order. rewrite decide_True by done.
    split; [by apply bool_decide_eq_false_2; tauto|].
    apply wf_mem in Hhas as [p Hp]; [|done].
    unfold Push. destruct (Z.eqb_spec (staticSize c) 0); [lia|].
    rewrite Hp. simpl. split; [done|]. split; [|split; [done|apply last_snoc]].
    unfold GoList.Len. simpl. f_equal.
    apply Permutation_length, move_to_back_perm.
  - intros k1 k2 rest knew Hnd Hlen c0 c.
    destruct (push_all_spec (k1 :: k2 :: rest) (NewLRUTxCache N) (wf_new N))
      as (Hwf0 & Hn0 & Hkeys0); [simpl; lia|].
    fold c0 in Hwf0, Hn0, Hkeys0. simpl staticSize in Hn0, Hkeys0.
    change (keys (NewLRUTxCache N)) with (@nil TxKey) in Hkeys0.
    apply NoDup_cons in Hnd as [Hk1 Hnd]. pose proof Hnd as Hnd2.
    apply NoDup_cons in Hnd2 as [Hk2 Hnd2].
    assert (NoDup (k1 :: k2 :: rest)) as Hnd0.
    { apply NoDup_cons. split.
      - intros Hin. apply Hk1. rewrite app_comm_cons. apply elem_of_app. by left.
      - rewrite app_comm_cons in Hnd. by apply NoDup_app in Hnd as [? _]. }
    simpl length in Hlen.
    rewrite push_order_fill in Hkeys0 by (simpl; first [done | lia]).
    simpl in Hkeys0.
    destruct (Push_spec c0 k1 Hwf0) as (Hwf1 & Hn1 & Hkeys1 & Hret1); [lia|].
    rewrite Hkeys0, Hn0 in Hkeys1. unfold push_order in Hkeys1.
    rewrite decide_True in Hkeys1 by (apply elem_of_cons; by left).
    rewrite filter_head_key in Hkeys1 by done.
    destruct (Push_spec (Push c0 k1).2 knew Hwf1) as (Hwf2 & Hn2 & Hkeys2 & _);
      [lia|].
    fold c in Hwf2, Hn2, Hkeys2. rewrite Hkeys1, Hn1, Hn0 in Hkeys2.
    simpl in Hkeys2. rewrite push_order_full in Hkeys2; cycle 1.
    { intros Hin. rewrite app_comm_cons in Hin, Hnd, Hk1.
      apply elem_of_app in Hin as [Hin|Hin%list_elem_of_singleton].
      - apply NoDup_app in Hnd as (_ & Hd & _). apply (Hd knew Hin).
        by apply list_elem_of_singleton.
      - subst. apply Hk1. apply elem_of_app. right.
        by apply list_elem_of_singleton. }
    { simpl. rewrite length_app. simpl. lia. }
    assert (∀ k, Has c k = bool_decide (k ∈ (rest ++ [k1]) ++ [knew])) as Hhas.
    { intros k. rewrite Has_keys by (done || lia). by rewrite Hkeys2. }
    split.
    { rewrite Hret1, Hkeys0. apply bool_decide_eq_false_2.
      intros Hn. apply Hn, elem_of_cons. by left. }
    rewrite !Hhas. split; [|split; [|split]].
    + apply bool_decide_eq_false_2. rewrite !elem_of_app, !list_elem_of_singleton.
      intros [[Hin| ->]| ->].
      * apply Hk2. apply elem_of_app. by left.
      * apply Hk1. apply elem_of_cons. by left.
      * apply Hk2. apply elem_of_app. right. by apply list_elem_of_singleton.
    + apply bool_decide_eq_true_2. rewrite !elem_of_app, !list_elem_of_singleton.
      auto.
    + apply bool_decide_eq_true_2. rewrite !elem_of_app, !list_elem_of_singleton.
      auto.
    + split.
      * intros k Hin. rewrite Hhas. apply bool_decide_eq_true_2.
        rewrite !elem_of_app. auto.
      * rewrite Hkeys2. by rewrite <- app_assoc.
  - intros -> k1 knew Hne c0 c.
    destruct (push_all_spec [k1] (NewLRUTxCache 1) (wf_new 1))
      as (Hwf0 & Hn0 & Hkeys0); [done|].
    fold c0 in Hwf0, Hn0, Hkeys0. simpl staticSize in Hn0, Hkeys0.
    change (keys (NewLRUTxCache 1)) with (@nil TxKey) in Hkeys0.
    rewrite push_order_fill in Hkeys0
      by (simpl; first [apply NoDup_singleton | lia]).
    simpl in Hkeys0.
    destruct (Push_spec c0 k1 Hwf0) as (Hwf1 & Hn1 & Hkeys1 & Hret1); [lia|].
    rewrite Hkeys0, Hn0 in Hkeys1. unfold push_order in Hkeys1.
    rewrite decide_True in Hkeys1 by (by apply list_elem_of_singleton).
    rewrite filter_head_key in Hkeys1 by apply NoDup_singleton.
    simpl in Hkeys1.
    destruct (Push_spec (Push c0 k1).2 knew Hwf1) as (Hwf2 & Hn2 & Hkeys2 & _);
      [lia|].
    fold c in Hwf2, Hn2, Hkeys2. rewrite Hkeys1, Hn1, Hn0 in Hkeys2.
    rewrite push_order_full in Hkeys2;
      [|by intros ?%list_elem_of_singleton|done].
    simpl in Hkeys2. split.
    { rewrite Hret1, Hkeys0. apply bool_decide_eq_false_2.
      intros Hn. by apply Hn, list_elem_of_singleton. }
    split; [done|]. rewrite !Has_keys by (done || lia). rewrite Hkeys2. split.
    + apply bool_decide_eq_false_2. by intros ?%list_elem_of_singleton.
    + apply bool_decide_eq_true_2. by apply list_elem_of_singleton.
Qed.

Lemma run_disabled ops c :
  staticSize c = 0 → cacheMap c = ∅ → GoList.elems (list_ c) = [] →
  staticSize (run c ops) = 0 ∧ cacheMap (run c ops) = ∅ ∧
  GoList.elems (list_ (run c ops)) = [].
Proof.
  revert c. induction ops as [|o ops IH]; intros c Hn Hm Hl; [done|].
  simpl. apply IH; destruct o as [k|k| |]; simpl; try done;
    try (unfold Push; by rewrite Hn).
  - rewrite Hm. apply delete_empty.
  - by rewrite Hm, lookup_empty.
Qed.

(** C5. A Dedup Cache of capacity 0 stays empty whatever is called on it:
    [Push] returns true and stores nothing, [Has] returns false. *)
Theorem zero_capacity_disabled (ops : list (op TxKey)) (k : TxKey) :
  let c := run (NewLRUTxCache 0) ops in
  (Push c k).1 = true ∧ (Push c k).2 = c ∧ Has c k = false ∧
  cacheMap c = ∅ ∧ GoList.elems (list_ c) = [].
Proof.
  intros c.
  destruct (run_disabled ops (NewLRUTxCache 0)) as (Hn & Hm & Hl); [done..|].
  fold c in Hn, Hm, Hl. unfold Push, Has. rewrite Hn. done.
Qed.
End Props.

(** The recency order on small runs. *)
Example order_after_overflow :
  keys (push_all (NewLRUTxCache 2) [1; 2; 3]%positive) = [2; 3]%positive.
Proof. reflexivity. Qed.

Example order_after_repush :
  keys (push_all (NewLRUTxCache 3) [1; 2; 3; 1; 4]%positive) = [3; 1; 4]%positive.
Proof. reflexivity. Qed.

Example order_after_remove :
  keys (run (NewLRUTxCache 3)
          [OpPush 1%positive; OpPush 2%positive; OpRemove 1%positive;
           OpPush 3%positive; OpPush 1%positive]) = [2; 3; 1]%positive.
Proof. reflexivity. Qed.

(** Capacity 2 and the keys 1, 2, 3: key 1 is evicted. *)
Lemma push_evicts_least_recent_witness :
  let ks := [1; 2; 3]%positive in
  let c := push_all (NewLRUTxCache 2) ks in
  keys c = tail ks ∧
  (∀ k, Has c k = bool_decide (k ∈ tail ks)) ∧
  (∀ k1, ks !! 0%nat = Some k1 → Has c k1 = false) ∧
  (∀ i k, (0 < i)%nat → ks !! i = Some k → Has c k = true).
Proof.
  apply (push_evicts_least_recent 2 [1; 2; 3]%positive).
  - lia.
  - apply (bool_decide_unpack _). vm_compute. exact I.
  - reflexivity.
Defined.

(** Capacity 1: after pushing key 1, pushing it again and pushing key 2, the
    key evicted is 1, the only one there was; key 2 is the new key. *)
Lemma repush_capacity_one_evicts_first :
  ¬ (∀ (N : Z) (ks : list positive) (knew k1 k2 : positive),
       0 < N → NoDup (ks ++ [knew]) → Z.of_nat (length ks) = N →
       (ks ++ [knew]) !! 0%nat = Some k1 →
       (ks ++ [knew]) !! 1%nat = Some k2 →
       let c := (Push (Push (push_all (NewLRUTxCache N) ks) k1).2 knew).2 in
       Has c k2 = false ∧ Has c k1 = true).
Proof.
  intros Hevery.
  destruct (Hevery 1 [1]%positive 2%positive 1%positive 2%positive) as [H2 _].
  - lia.
  - apply (bool_decide_unpack _). vm_compute. exact I.
  - reflexivity.
  - reflexivity.
  - reflexivity.
  - vm_compute in H2. discriminate H2.
Qed.

(** Capacity 2 and the keys 1, 2, then 1 again, then 3; capacity 1 and
    the key 1, then 1 again, then 2. *)
Lemma repush_moves_to_back_witness :
  (let c := run (NewLRUTxCache 2) [OpPush 1%positive; OpPush 2%positive] in
   (Push c 1%positive).1 = false ∧
   last (keys (Push c 1%positive).2) = Some 1%positive) ∧
  (let c0 := push_all (NewLRUTxCache 2) [1; 2]%positive in
   let c := (Push (Push c0 1%positive).2 3%positive).2 in
   Has c 2%positive = false ∧ Has c 1%positive = true) ∧
  (let c0 := push_all (NewLRUTxCache 1) [1%positive] in
   let c := (Push (Push c0 1%positive).2 2%positive).2 in
   keys c = [2%positive] ∧ Has c 1%positive = false ∧ Has c 2%positive = true).
Proof.
  destruct (repush_moves_to_back (TxKey:=positive) 1 ltac:(lia)) as (_ & _ & Hone).
  destruct (repush_moves_to_back (TxKey:=positive) 2 ltac:(lia))
    as (Hpush & Hrun & _).
  split; [|split]; cycle 2.
  { destruct (Hone eq_refl 1%positive 2%positive) as (_ & Hk & H1 & H2);
      [discriminate|].
    split; [exact Hk|]. split; [exact H1|exact H2]. }
  - destruct (Hpush [OpPush 1%positive; OpPush 2%positive] 1%positive)
      as (Hret & _ & _ & _ & Hlast); [reflexivity|].
    split; [exact Hret|exact Hlast].
  - destruct (Hrun 1%positive 2%positive [] 3%positive) as (_ & H2 & H1 & _).
    + apply (bool_decide_unpack _). vm_compute. exact I.
    + reflexivity.
    + split; [exact H2|exact H1].
Defined.

(** ** Further properties: bounds, lookups after updates, eviction *)
Section More.
Context {TxKey : Type} `{Countable TxKey}.
Implicit Types (c : t TxKey) (k : TxKey).

Lemma wf_size c : wf c → size (cacheMap c) = length (keys c).
Proof.
  intros Hwf.
  assert (dom (cacheMap c) = list_to_set (keys c)) as Hdom.
  { apply set_eq. intros k.
    rewrite elem_of_dom, elem_of_list_to_set. symmetry. by apply wf_mem. }
  rewrite <- size_dom, Hdom. apply size_list_to_set, Hwf.
Qed.

Lemma length_push_order n (l : list TxKey) k :
  0 < n → NoDup l → Z.of_nat (length l) ≤ n →
  Z.of_nat (length (push_order n l k)) ≤ n.
Proof.
  intros Hn Hnd Hlen. unfold push_order. destruct (decide (k ∈ l)) as [Hin|Hin].
  - rewrite length_app. simpl.
    pose proof (length_filter_lt (λ k', k' ≠ k) l k Hin) as Hlt.
    assert (¬ k ≠ k) as Hk by tauto. specialize (Hlt Hk). lia.
  - rewrite length_app. simpl.
    destruct (Z.geb_spec (Z.of_nat (length l)) n); [|lia].
    destruct l as [|k0 l]; simpl in *; lia.
Qed.

Lemma run_length N ops c :
  0 < N → wf c → staticSize c = N → Z.of_nat (length (keys c)) ≤ N →
  Z.of_nat (length (keys (run c ops))) ≤ N.
Proof.
  intros HN. revert c. induction ops as [|o ops IH]; intros c Hwf Hc Hlen; [done|].
  simpl. destruct (step_spec c o Hwf) as [Hwf' Hc'].
  apply IH; [done|congruence|]. destruct o as [k|k| |]; simpl.
  - destruct (Push_spec c k Hwf) as (_ & _ & -> & _); [lia|].
    rewrite Hc. apply length_push_order; [done|apply Hwf|done].
  - destruct (Remove_spec c k Hwf) as (_ & _ & ->).
    pose proof (length_filter (λ k', k' ≠ k) (keys c)). lia.
  - done.
  - simpl. lia.
Qed.

(** X1. A Dedup Cache of capacity [N > 0] never holds more than [N] keys,
    whatever is called on it; its map has one entry for each cell of its
    list, and no key has two cells. *)
Theorem lru_never_exceeds_capacity (N : Z) (ops : list (op TxKey)) :
  0 < N →
  let c := run (NewLRUTxCache N) ops in
  GoList.Len (list_ c) ≤ N ∧
  Z.of_nat (size (cacheMap c)) = GoList.Len (list_ c) ∧
  NoDup (keys c).
Proof.
  intros HN c.
  destruct (run_spec ops (NewLRUTxCache N) (wf_new N)) as [Hwf Hn].
  fold c in Hwf, Hn.
  assert (GoList.Len (list_ c) = Z.of_nat (length (keys c))) as ->.
  { unfold GoList.Len, keys. by rewrite length_fmap. }
  split; [|split; [|apply Hwf]].
  - apply run_length; [done|apply wf_new|done|simpl; lia].
  - by rewrite wf_size.
Qed.

(** X2. On a cache in any state it can reach, [Push] returns true exactly
    when [Has] was false for the key; afterwards [Has] is true for the key
    unless the capacity is 0. *)
Theorem push_reports_absence (N : Z) (ops : list (op TxKey)) (k : TxKey) :
  let c := run (NewLRUTxCache N) ops in
  (Push c k).1 = negb (Has c k) ∧
  Has (Push c k).2 k = negb (N =? 0).
Proof.
  intros c.
  destruct (run_spec ops (NewLRUTxCache N) (wf_new N)) as [Hwf Hn].
  fold c in Hwf, Hn. simpl in Hn.
  destruct (Z.eqb_spec N 0) as [->|HN].
  - unfold Push. rewrite Hn. simpl. unfold Has. rewrite Hn. done.
  - destruct (Push_spec c k Hwf) as (Hwf' & Hn' & Hkeys & Hret); [lia|].
    rewrite Hret, !Has_keys by (done || lia). rewrite Hkeys. split.
    + destruct (decide (k ∈ keys c)).
      * by rewrite bool_decide_eq_false_2, bool_decide_eq_true_2 by tauto.
      * by rewrite bool_decide_eq_true_2, bool_decide_eq_false_2 by tauto.
    + apply bool_decide_eq_true_2. unfold push_order.
      destruct (decide (k ∈ keys c)); apply elem_of_app; right;
        by apply list_elem_of_singleton.
Qed.

(** X3. Pushing an absent key into a cache of capacity [N > 0]: while the
    cache holds fewer than [N] keys nothing is evicted; once it holds [N],
    the key evicted is the least recently used one and only that one. *)
Theorem push_absent_evicts_only_least_recent (N : Z) (ops : list (op TxKey))
    (k : TxKey) :
  0 < N →
  let c := run (NewLRUTxCache N) ops in
  Has c k = false →
  (GoList.Len (list_ c) < N →
     keys (Push c k).2 = keys c ++ [k] ∧
     ∀ k', Has (Push c k).2 k' = Has c k' || bool_decide (k' = k)) ∧
  (N ≤ GoList.Len (list_ c) →
     ∃ lru rest,
       keys c = lru :: rest ∧ keys (Push c k).2 = rest ++ [k] ∧
       Has (Push c k).2 lru = false ∧
       ∀ k', k' ≠ lru → Has (Push c k).2 k' = Has c k' || bool_decide (k' = k)).
Proof.
  intros HN c Hhas.
  destruct (run_spec ops (NewLRUTxCache N) (wf_new N)) as [Hwf Hn].
  fold c in Hwf, Hn. simpl in Hn.
  rewrite Has_keys in Hhas by (done || lia).
  apply bool_decide_eq_false_1 in Hhas.
  destruct (Push_spec c k Hwf) as (Hwf' & Hn' & Hkeys & _); [lia|].
  assert (GoList.Len (list_ c) = Z.of_nat (length (keys c))) as ->.
  { unfold GoList.Len, keys. by rewrite length_fmap. }
  unfold push_order in Hkeys. rewrite decide_False, Hn in Hkeys by done.
  assert (∀ l k', bool_decide (k' ∈ l ++ [k]) =
                  bool_decide (k' ∈ l) || bool_decide (k' = k)) as Hsnoc.
  { intros l k'. apply eq_true_iff_eq.
    rewrite orb_true_iff, !bool_decide_eq_true, elem_of_app,
      list_elem_of_singleton. done. }
  split.
  - intros Hroom.
    destruct (Z.geb_spec (Z.of_nat (length (keys c))) N); [lia|].
    split; [done|]. intros k'.
    rewrite !Has_keys by (done || lia). rewrite Hkeys. apply Hsnoc.
  - intros Hfull.
    destruct (Z.geb_spec (Z.of_nat (length (keys c))) N); [|lia].
    destruct (keys c) as [|lru rest] eqn:Hkc; [simpl in Hfull; lia|].
    simpl in Hkeys. exists lru, rest. split; [done|]. split; [done|].
    pose proof (wf_keys c Hwf) as Hnd. rewrite Hkc in Hnd.
    apply NoDup_cons in Hnd as [Hlru _]. split.
    + rewrite Has_keys by (done || lia). rewrite Hkeys.
      apply bool_decide_eq_false_2. intros [Hin|Hin]%elem_of_app; [done|].
      apply list_elem_of_singleton in Hin as ->.
      apply Hhas, elem_of_cons. by left.
    + intros k' Hk'. rewrite !Has_keys by (done || lia).
      rewrite Hkeys, Hkc, Hsnoc. f_equal. apply bool_decide_ext.
      rewrite elem_of_cons. tauto.
Qed.

(** X4. [Remove] forgets the key and nothing else: [Has] is false for it
    afterwards and as before for every other key, and the recency order of
    the keys that stay is as it was. *)
Theorem remove_forgets_only_key (N : Z) (ops : list (op TxKey)) (k : TxKey) :
  let c := run (NewLRUTxCache N) ops in
  keys (Remove c k) = filter (λ k', k' ≠ k) (keys c) ∧
  Has (Remove c k) k = false ∧
  (∀ k', k' ≠ k → Has (Remove c k) k' = Has c k').
Proof.
  intros c.
  destruct (run_spec ops (NewLRUTxCache N) (wf_new N)) as [Hwf Hn].
  fold c in Hwf, Hn. simpl in Hn.
  destruct (Remove_spec c k Hwf) as (Hwf' & Hn' & Hkeys).
  split; [done|]. destruct (Z.eq_dec N 0) as [->|HN].
  - unfold Has. simpl. rewrite Hn. done.
  - split.
    + rewrite Has_keys by (done || lia). rewrite Hkeys.
      apply bool_decide_eq_false_2. intros [Hk _]%list_elem_of_filter. done.
    + intros k' Hk'. rewrite !Has_keys by (done || lia). rewrite Hkeys.
      apply bool_decide_ext. rewrite list_elem_of_filter. tauto.
Qed.

Lemma step_keys_congr c1 c2 o :
  wf c1 → wf c2 → staticSize c1 = staticSize c2 → keys c1 = keys c2 →
  keys (step c1 o) = keys (step c2 o).
Proof.
  intros Hwf1 Hwf2 Hn Hk. destruct o as [k|k| |]; simpl.
  - destruct (Z.eq_dec (staticSize c1) 0) as [Hz|Hz].
    + unfold Push. rewrite <- Hn, Hz. done.
    + destruct (Push_spec c1 k Hwf1 Hz) as (_ & _ & -> & _).
      destruct (Push_spec c2 k Hwf2) as (_ & _ & -> & _); congruence.
  - destruct (Remove_spec c1 k Hwf1) as (_ & _ & ->).
    destruct (Remove_spec c2 k Hwf2) as (_ & _ & ->). congruence.
  - done.
  - done.
Qed.

Lemma run_keys_congr ops c1 c2 :
  wf c1 → wf c2 → staticSize c1 = staticSize c2 → keys c1 = keys c2 →
  keys (run c1 ops) = keys (run c2 ops).
Proof.
  revert c1 c2. induction ops as [|o ops IH]; intros c1 c2 Hwf1 Hwf2 Hn Hk; [done|].
  simpl. destruct (step_spec c1 o Hwf1) as [Hwf1' Hn1].
  destruct (step_spec c2 o Hwf2) as [Hwf2' Hn2].
  apply IH; [done|done|congruence|by apply step_keys_congr].
Qed.

(** X5. After [Reset()] the cache goes on as a new one of the same capacity
    would: whatever is called next, the keys held, their recency order and
    the results of [Has] and [Push] are those of a new cache on which the
    same calls were made. *)
Theorem reset_then_run_as_new (N : Z) (before after : list (op TxKey))
    (k : TxKey) :
  let c := run (Reset (run (NewLRUTxCache N) before)) after in
  let c' := run (NewLRUTxCache N) after in
  keys c = keys c' ∧ Has c k = Has c' k ∧ (Push c k).1 = (Push c' k).1.
Proof.
  intros c c'.
  destruct (run_spec before (NewLRUTxCache N) (wf_new N)) as [_ Hn0].
  destruct (run_spec after (Reset (run (NewLRUTxCache N) before))
              (wf_reset _)) as [Hwf Hn].
  destruct (run_spec after (NewLRUTxCache N) (wf_new N)) as [Hwf' Hn'].
  fold c in Hwf, Hn. fold c' in Hwf', Hn'. simpl in Hn, Hn', Hn0.
  rewrite Hn0 in Hn.
  assert (keys c = keys c') as Hkeys.
  { apply run_keys_congr; [apply wf_reset|apply wf_new|by simpl|done]. }
  split; [done|]. destruct (Z.eq_dec N 0) as [->|HN].
  - unfold Has, Push. rewrite Hn, Hn'. done.
  - rewrite !Has_keys by (done || lia). rewrite Hkeys. split; [done|].
    destruct (Push_spec c k Hwf) as (_ & _ & _ & ->); [lia|].
    destruct (Push_spec c' k Hwf') as (_ & _ & _ & ->); [lia|].
    by rewrite Hkeys.
Qed.
End More.

(** Capacity 2: three keys pushed, then a fourth. *)
Lemma lru_never_exceeds_capacity_witness :
  let c := run (NewLRUTxCache 2)
             [OpPush 1%positive; OpPush 2%positive; OpPush 3%positive] in
  GoList.Len (list_ c) ≤ 2 ∧
  Z.of_nat (size (cacheMap c)) = GoList.Len (list_ c) ∧
  NoDup (keys c).
Proof.
  apply (lru_never_exceeds_capacity 2
           [OpPush 1%positive; OpPush 2%positive; OpPush 3%positive]).
  lia.
Defined.

Lemma push_absent_evicts_only_least_recent_witness :
  let c1 := run (NewLRUTxCache 2) [OpPush 1%positive] in
  let c2 := run (NewLRUTxCache 2) [OpPush 1%positive; OpPush 2%positive] in
  keys (Push c1 3%positive).2 = [1; 3]%positive ∧
  (∃ lru rest,
     keys c2 = lru :: rest ∧ keys (Push c2 3%positive).2 = rest ++ [3%positive] ∧
     Has (Push c2 3%positive).2 lru = false).
Proof.
  intros c1 c2. split.
  - destruct (push_absent_evicts_only_least_recent 2 [OpPush 1%positive]
                3%positive) as [Hroom _]; [lia|reflexivity|].
    destruct Hroom as [Hkeys _]; [vm_compute; reflexivity|]. exact Hkeys.
  - destruct (push_absent_evicts_only_least_recent 2
                [OpPush 1%positive; OpPush 2%positive] 3%positive)
      as [_ Hfull]; [lia|reflexivity|].
    destruct Hfull as (lru & rest & Hk & Hk' & Hlru & _); [vm_compute; discriminate|].
    exists lru, rest. split; [exact Hk|]. split; [exact Hk'|exact Hlru].
Defined.

End LRUTxCacheSpec.

(** * Properties of EvictedTxCache *)
Module EvictedTxCacheSpec.
Import EvictedTxCache.

Section Props.
Context {TxKey : Type} `{Countable TxKey}.
Implicit Types (c : t TxKey) (k : TxKey) (m : gmap TxKey EvictedTxInfo.t).
Implicit Types (order : list (TxKey * EvictedTxInfo.t)) (info : EvictedTxInfo.t).

Lemma visits_elem m order k info :
  visits m order → (k, info) ∈ order ↔ m !! k = Some info.
Proof.
  unfold visits. intros ->. apply elem_of_map_to_list.
Qed.

(** ** The loop of [Prune] *)
Abbreviation prune_body limit :=
  (λ m (e : TxKey * EvictedTxInfo.t),
     if Before (EvictedTxInfo.timeEvicted e.2) limit then delete e.1 m else m).

Lemma prune_fold_none limit order m k :
  m !! k = None → foldl (prune_body limit) m order !! k = None.
Proof.
  revert m. induction order as [|[k' info'] order IH]; intros m Hm; [done|].
  simpl. apply IH. destruct (Before _ _); [|done].
  rewrite lookup_delete. by case_decide.
Qed.

Lemma prune_fold_hit limit order m k info :
  (k, info) ∈ order → Before (EvictedTxInfo.timeEvicted info) limit = true →
  foldl (prune_body limit) m order !! k = None.
Proof.
  revert m. induction order as [|[k' info'] order IH]; intros m Hin Hb.
  - by apply elem_of_nil in Hin.
  - simpl. apply elem_of_cons in Hin as [[= <- <-]|Hin]; [|by apply IH].
    rewrite Hb. apply prune_fold_none, lookup_delete_eq.
Qed.

Lemma prune_fold_miss limit order m k :
  (∀ info, (k, info) ∈ order → Before (EvictedTxInfo.timeEvicted info) limit = false) →
  foldl (prune_body limit) m order !! k = m !! k.
Proof.
  revert m. induction order as [|[k' info'] order IH]; intros m Hall; [done|].
  simpl. rewrite IH.
  - destruct (Before _ _) eqn:Hb; [|done].
    rewrite lookup_delete_ne; [done|]. intros <-.
    rewrite Hall in Hb; [done|]. apply elem_of_cons. by left.
  - intros info Hin. apply Hall. apply elem_of_cons. by right.
Qed.

Lemma prune_fold_size limit order m :
  (size (foldl (prune_body limit) m order) ≤ size m)%nat.
Proof.
  revert m. induction order as [|[k' info'] order IH]; intros m; [done|].
  simpl. etransitivity; [apply IH|]. destruct (Before _ _); [|done].
  rewrite map_size_delete. destruct (m !! k'); simpl; lia.
Qed.

(** C6. [Prune(limit)] removes every record evicted strictly before [limit]
    and no other: a record evicted at [limit] or later is still there,
    unchanged, and nothing is added. *)
Theorem prune_removes_exactly_older c limit order :
  visits (cache c) order →
  staticSize (Prune c limit order) = staticSize c ∧
  ∀ k, Get (Prune c limit order) k =
       match Get c k with
       | Some info =>
           if Before (EvictedTxInfo.timeEvicted info) limit then None
           else Some info
       | None => None
       end.
Proof.
  intros Hv. split; [done|]. intros k. unfold Get, Prune. simpl.
  destruct (cache c !! k) as [info|] eqn:Hk.
  - destruct (Before _ _) eqn:Hb.
    + eapply prune_fold_hit; [|exact Hb]. by apply (visits_elem (cache c)).
    + rewrite prune_fold_miss; [done|]. intros info' Hin.
      apply (visits_elem (cache c)) in Hin; [|done]. congruence.
  - by apply prune_fold_none.
Qed.

(** ** The loop of [Push] *)

(** What the loop holds after the entries of [order]: a time not after the
    start time and not after any entry visited, which is the start pair or
    the time of an entry visited under the key held. *)
Lemma scan_oldest_spec order k0 t0 :
  let r := scan_oldest order (k0, t0) in
  r.2 ≤ t0 ∧
  (∀ k info, (k, info) ∈ order → r.2 ≤ EvictedTxInfo.timeEvicted info) ∧
  (r = (k0, t0) ∨
   ∃ info, (r.1, info) ∈ order ∧ EvictedTxInfo.timeEvicted info = r.2).
Proof.
  induction order as [|[k' info'] order IH] using rev_ind; simpl.
  - split; [lia|]. split; [by intros ?? ?%elem_of_nil|by left].
  - unfold scan_oldest in *. rewrite foldl_app. simpl.
    set (r := foldl _ (k0, t0) order) in *.
    destruct IH as (Hle & Hall & Hsrc). unfold Before.
    destruct (Z.ltb_spec (EvictedTxInfo.timeEvicted info') r.2) as [Hlt|Hge]; simpl.
    + split; [lia|]. split.
      * intros k info [Hin|[= -> ->]%list_elem_of_singleton]%elem_of_app; [|lia].
        specialize (Hall k info Hin). lia.
      * right. exists info'. split; [|done].
        apply elem_of_app. right. by apply list_elem_of_singleton.
    + split; [done|]. split.
      * intros k info [Hin|[= -> ->]%list_elem_of_singleton]%elem_of_app; [|lia].
        exact (Hall k info Hin).
      * destruct Hsrc as [?|(info & Hin & Ht)]; [by left|]. right.
        exists info. split; [|done]. apply elem_of_app. by left.
Qed.

(** The key [Push] deletes when the cache is too large is the key of a
    record of the map, and no record of the map was evicted before it. *)
Lemma Push_deletes_oldest m wtx now now' order :
  m !! WrappedTx.key wtx = Some (info_of wtx now) → now ≤ now' →
  visits m order →
  let oldestTxKey := (scan_oldest order (WrappedTx.key wtx, now')).1 in
  ∃ info, m !! oldestTxKey = Some info ∧
          ∀ k' info', m !! k' = Some info' →
                      EvictedTxInfo.timeEvicted info ≤ EvictedTxInfo.timeEvicted info'.
Proof.
  intros Hkey Hclock Hv.
  destruct (scan_oldest_spec order (WrappedTx.key wtx) now') as (Hle & Hall & Hsrc).
  cbv zeta. destruct Hsrc as [Hstart|(info & Hin & Ht)].
  - rewrite Hstart in Hle, Hall |- *. simpl in *.
    exists (info_of wtx now). split; [done|].
    intros k' info' Hk'. apply (visits_elem m order) in Hk'; [|done].
    specialize (Hall _ _ Hk'). simpl. lia.
  - exists info. split; [by apply (visits_elem m order)|].
    intros k' info' Hk'. apply (visits_elem m order) in Hk'; [|done].
    specialize (Hall _ _ Hk'). lia.
Qed.

Lemma Push_size c wtx now now' order :
  visits (<[WrappedTx.key wtx := info_of wtx now]> (cache c)) order →
  Z.of_nat (size (cache c)) ≤ staticSize c →
  Z.of_nat (size (cache (Push c wtx now now' order))) ≤ staticSize c.
Proof.
  intros Hv Hsize. unfold Push.
  set (m := <[WrappedTx.key wtx := info_of wtx now]> (cache c)) in *.
  assert (size m ≤ S (size (cache c)))%nat as Hm.
  { unfold m. rewrite map_size_insert. destruct (cache c !! _); simpl; lia. }
  destruct (Z.gtb_spec (Z.of_nat (size m)) (staticSize c)) as [Hgt|Hle];
    simpl; [|lia].
  destruct (scan_oldest_spec order (WrappedTx.key wtx) now') as (_ & _ & Hsrc).
  assert (is_Some (m !! (scan_oldest order (WrappedTx.key wtx, now')).1)) as Hin.
  { destruct Hsrc as [->|(info & Hin & _)].
    - simpl. unfold m. rewrite lookup_insert_eq. eauto.
    - apply (visits_elem m order) in Hin; [|done]. eauto. }
  rewrite map_size_delete_Some by done. lia.
Qed.

(** ** Runs of calls *)
Lemma reachable_staticSize n c : reachable n c → staticSize c = n.
Proof.
  induction 1 as [|c wtx now now' order _ IH _|c k _ IH|c l o _ IH _|c _ IH];
    simpl; try done.
  - unfold Push. by destruct (_ >? _).
  - unfold Pop. by destruct (cache c !! k).
Qed.

Lemma reachable_size n c :
  0 ≤ n → reachable n c → Z.of_nat (size (cache c)) ≤ n.
Proof.
  intros Hn Hr. induction Hr as [|c wtx now now' order Hr IH Hv|c k Hr IH
                                |c l o Hr IH _|c _ IH]; simpl.
  - rewrite map_size_empty. lia.
  - rewrite <- (reachable_staticSize n c Hr) in IH |- *. by apply Push_size.
  - unfold Pop. destruct (cache c !! k) eqn:Hk; simpl; [|done].
    rewrite map_size_delete, Hk. simpl. lia.
  - pose proof (prune_fold_size l o (cache c)). lia.
  - rewrite map_size_empty. lia.
Qed.

Lemma push_calls_fill calls c :
  NoDup (call_key <$> calls) →
  (∀ pc, pc ∈ calls → cache c !! call_key pc = None) →
  Z.of_nat (size (cache c)) + Z.of_nat (length calls) ≤ staticSize c →
  push_calls c calls =
    {| staticSize := staticSize c; cache := records (cache c) calls |}.
Proof.
  revert c. induction calls as [|pc calls IH]; intros c Hnd Hfresh Hsize.
  - by destruct c.
  - rewrite fmap_cons in Hnd. apply NoDup_cons in Hnd as [Hpc Hnd].
    simpl in Hsize |- *.
    assert (push_one c pc =
              {| staticSize := staticSize c;
                 cache := <[call_key pc := call_info pc]> (cache c) |}) as ->.
    { unfold push_one, Push. fold (call_key pc). fold (call_info pc).
      rewrite map_size_insert_None by (apply Hfresh, elem_of_cons; by left).
      destruct (Z.gtb_spec (Z.of_nat (S (size (cache c)))) (staticSize c));
        [lia|done]. }
    rewrite IH; simpl; [done|done| |].
    + intros pc' Hin. rewrite lookup_insert_ne.
      * apply Hfresh, elem_of_cons. by right.
      * intros Heq. apply Hpc. rewrite Heq. by apply list_elem_of_fmap_2.
    + rewrite map_size_insert_None by (apply Hfresh, elem_of_cons; by left).
      lia.
Qed.

Lemma records_snoc m calls (pc : push_call TxKey) :
  records m (calls ++ [pc]) = <[call_key pc := call_info pc]> (records m calls).
Proof. unfold records. by rewrite foldl_app. Qed.

Lemma lookup_records (calls : list (push_call TxKey)) k info :
  NoDup (call_key <$> calls) →
  records ∅ calls !! k = Some info ↔
  ∃ pc, pc ∈ calls ∧ call_key pc = k ∧ call_info pc = info.
Proof.
  induction calls as [|pc calls IH] using rev_ind; intros Hnd.
  - unfold records. simpl. rewrite lookup_empty. split; [done|].
    by intros (pc & ?%elem_of_nil & _).
  - rewrite fmap_app in Hnd. apply NoDup_app in Hnd as (Hnd & Hd & _).
    rewrite records_snoc, lookup_insert. case_decide as Hk.
    + split.
      * intros [= <-]. exists pc. split; [|done].
        apply elem_of_app. right. by apply list_elem_of_singleton.
      * intros (pc' & Hin & Hk' & <-). f_equal.
        apply elem_of_app in Hin as [Hin| ->%list_elem_of_singleton]; [|done].
        destruct (Hd (call_key pc')); [by apply list_elem_of_fmap_2|].
        simpl. rewrite Hk', <- Hk. by apply list_elem_of_singleton.
    + rewrite IH by done. split.
      * intros (pc' & Hin & ?). exists pc'. split; [|done].
        apply elem_of_app. by left.
      * intros (pc' & Hin & Hk' & Hi). exists pc'.
        apply elem_of_app in Hin as [Hin| ->%list_elem_of_singleton]; [done|].
        congruence.
Qed.

Lemma size_records (calls : list (push_call TxKey)) :
  NoDup (call_key <$> calls) → size (records ∅ calls) = length calls.
Proof.
  induction calls as [|pc calls IH] using rev_ind; intros Hnd; [done|].
  rewrite fmap_app in Hnd. apply NoDup_app in Hnd as (Hnd & Hd & _).
  rewrite records_snoc, length_app.
  rewrite map_size_insert_None; [rewrite IH by done; simpl; lia|].
  destruct (records ∅ calls !! call_key pc) as [info|] eqn:Hl; [|done].
  apply lookup_records in Hl as (pc' & Hin & Hk & _); [|done].
  destruct (Hd (call_key pc')); [by apply list_elem_of_fmap_2|].
  rewrite Hk. simpl. by apply list_elem_of_singleton.
Qed.

Lemma increasing_head (pc : push_call TxKey) rest :
  increasing (pc :: rest) → ∀ pc', pc' ∈ rest → call_now pc < call_now pc'.
Proof.
  revert pc. induction rest as [|pc1 rest IH]; intros pc Hinc pc' Hin.
  - by apply elem_of_nil in Hin.
  - destruct Hinc as [Hlt Hinc].
    apply elem_of_cons in Hin as [->|Hin]; [done|].
    specialize (IH pc1 Hinc pc' Hin). lia.
Qed.

Lemma valid_calls_snoc c calls (pc : push_call TxKey) :
  valid_calls c (calls ++ [pc]) →
  call_now pc ≤ call_now' pc ∧
  visits (<[call_key pc := call_info pc]> (cache (push_calls c calls)))
         (call_order pc).
Proof.
  revert c. induction calls as [|pc1 calls IH]; intros c; simpl.
  - tauto.
  - intros (_ & _ & Hrest). by apply IH.
Qed.

(** After [N + 1] calls with distinct keys and increasing times, what is
    stored is the record of every call but the first. *)
Lemma push_calls_overflow (N : Z) (pc0 : push_call TxKey) rest :
  let calls := pc0 :: rest in
  Z.of_nat (length calls) = N + 1 →
  NoDup (call_key <$> calls) → increasing calls →
  valid_calls (NewEvictedTxCache N) calls →
  cache (push_calls (NewEvictedTxCache N) calls) =
    delete (call_key pc0) (records ∅ calls).
Proof.
  intros calls Hlen Hnd Hinc Hvalid.
  assert (∃ l pcl, calls = l ++ [pcl]) as (l & pcl & Hsnoc).
  { destruct (calls) as [|x l' _] eqn:E using rev_ind; [done|eauto]. }
  rewrite Hsnoc in Hlen, Hvalid |- *.
  apply valid_calls_snoc in Hvalid as [Hclock Hv].
  rewrite length_app in Hlen. simpl in Hlen.
  assert (NoDup (call_key <$> l)) as Hndl.
  { rewrite Hsnoc, fmap_app in Hnd. by apply NoDup_app in Hnd as [? _]. }
  unfold push_calls in *. rewrite foldl_app. simpl.
  fold (push_calls (NewEvictedTxCache N) l) in *.
  rewrite push_calls_fill in Hv |- *; simpl; try done;
    try (rewrite map_size_empty; lia).
  simpl in Hv. rewrite <- records_snoc in Hv.
  unfold push_one, Push. simpl. fold (call_key pcl). fold (call_info pcl).
  rewrite <- !records_snoc. rewrite <- Hsnoc in Hv |- *.
  rewrite size_records by done.
  destruct (Z.gtb_spec (Z.of_nat (length calls)) N) as [_|Hle];
    [|rewrite Hsnoc, length_app in Hle; simpl in Hle; lia].
  simpl. f_equal.
  destruct (Push_deletes_oldest (records ∅ calls) (call_tx pcl) (call_now pcl)
              (call_now' pcl) (call_order pcl)) as (info & Hold & Hmin);
    [|done|done|].
  { apply lookup_records; [done|]. exists pcl. split; [|done].
    rewrite Hsnoc. apply elem_of_app. right. by apply list_elem_of_singleton. }
  apply lookup_records in Hold as (pc & Hin & Hkey & Hinfo); [|done].
  etransitivity; [symmetry; exact Hkey|].
  assert (records ∅ calls !! call_key pc0 = Some (call_info pc0)) as H0.
  { apply lookup_records; [done|]. exists pc0. split; [|done].
    apply elem_of_cons. by left. }
  specialize (Hmin _ _ H0). rewrite <- Hinfo in Hmin. simpl in Hmin.
  unfold calls in Hin. apply elem_of_cons in Hin as [->|Hin]; [done|].
  pose proof (increasing_head pc0 rest Hinc pc Hin). lia.
Qed.


(** C10. Pushing a transaction whose key is already recorded, in a cache
    that is within its capacity, overwrites the record of that key with the
    new call's priority, gas wanted, sender and size and the time of the
    call; the number of records does not change and every other record is
    left as it was. *)
Theorem push_recorded_key_replaces c wtx now now' order old :
  cache c !! WrappedTx.key wtx = Some old →
  Z.of_nat (size (cache c)) ≤ staticSize c →
  let c' := Push c wtx now now' order in
  Get c' (WrappedTx.key wtx) =
    Some {| EvictedTxInfo.timeEvicted := now;
            EvictedTxInfo.priority := WrappedTx.priority wtx;
            EvictedTxInfo.gasWanted := WrappedTx.gasWanted wtx;
            EvictedTxInfo.sender := WrappedTx.sender wtx;
            EvictedTxInfo.size := WrappedTx.size wtx |} ∧
  size (cache c') = size (cache c) ∧
  staticSize c' = staticSize c ∧
  (∀ k, k ≠ WrappedTx.key wtx → Get c' k = Get c k).
Proof.
  intros Hold Hsize c'. unfold c', Push.
  rewrite map_size_insert_Some by eauto.
  destruct (Z.gtb_spec (Z.of_nat (size (cache c))) (staticSize c)); [lia|].
  unfold Get. simpl. split; [apply lookup_insert_eq|].
  split; [by apply map_size_insert_Some; eauto|]. split; [done|].
  intros k Hk. by apply lookup_insert_ne.
Qed.
End Props.



(** Records evicted at 10 and 20, pruned with limit 15. *)
Lemma prune_removes_exactly_older_witness :
  let tx k := WrappedTx.mk k 5 7 "alice" 100 in
  let c := {| staticSize := 2;
              cache := <[2%positive := info_of (tx 2%positive) 20]>
                         {[1%positive := info_of (tx 1%positive) 10]} |} in
  let order := [(2%positive, info_of (tx 2%positive) 20);
                (1%positive, info_of (tx 1%positive) 10)] in
  Get (Prune c 15 order) 1%positive = None ∧
  Get (Prune c 15 order) 2%positive = Some (info_of (tx 2%positive) 20).
Proof.
  intros tx c order.
  destruct (prune_removes_exactly_older c 15 order) as [_ Hget].
  - unfold visits. vm_compute. reflexivity.
  - split; [exact (Hget 1%positive)|exact (Hget 2%positive)].
Defined.

(** Key 1 recorded at time 10 and pushed again at time 20. *)
Lemma push_recorded_key_replaces_witness :
  let old := WrappedTx.mk 1%positive 5 7 "alice" 100 in
  let new := WrappedTx.mk 1%positive 9 3 "bob" 64 in
  let c := {| staticSize := 1; cache := {[1%positive := info_of old 10]} |} in
  let c' := Push c new 20 21 [(1%positive, info_of new 20)] in
  Get c' 1%positive =
    Some {| EvictedTxInfo.timeEvicted := 20; EvictedTxInfo.priority := 9;
            EvictedTxInfo.gasWanted := 3; EvictedTxInfo.sender := "bob";
            EvictedTxInfo.size := 64 |} ∧
  size (cache c') = size (cache c).
Proof.
  intros old new c c'.
  destruct (push_recorded_key_replaces c new 20 21
              [(1%positive, info_of new 20)] (info_of old 10))
    as (Hget & Hsize & _).
  - reflexivity.
  - vm_compute. discriminate.
  - split; [exact Hget|exact Hsize].
Defined.

(** ** Further properties: [Pop], what [Push] keeps, [Prune] and order *)
Section More.
Context {TxKey : Type} `{Countable TxKey}.
Implicit Types (c : t TxKey) (k : TxKey) (m : gmap TxKey EvictedTxInfo.t).
Implicit Types (order : list (TxKey * EvictedTxInfo.t)) (info : EvictedTxInfo.t).

(** X6. [Pop] returns the record [Get] returns and deletes it and no other:
    afterwards the key is absent and every other key is as before; on an
    absent key it returns nothing and leaves the cache as it is. *)
Theorem pop_returns_and_deletes c k :
  (Pop c k).1 = Get c k ∧
  Get (Pop c k).2 k = None ∧
  (∀ k', k' ≠ k → Get (Pop c k).2 k' = Get c k') ∧
  staticSize (Pop c k).2 = staticSize c ∧
  size (cache (Pop c k).2) = (size (cache c) - (if Has c k then 1 else 0))%nat ∧
  (Has c k = false → Pop c k = (None, c)).
Proof.
  unfold Pop, Get, Has. destruct (cache c !! k) as [info|] eqn:Hk; simpl.
  - rewrite lookup_delete_eq, map_size_delete_Some by eauto.
    split; [done|]. split; [done|]. split; [|split; [done|split; [lia|done]]].
    intros k' Hk'. by rewrite lookup_delete_ne.
  - rewrite ?Hk. repeat split; try done. lia.
Qed.

(** X7. A record pushed under a new key into a cache with room comes back
    from [Pop] as it was pushed, and the cache is then as before the
    [Push]. *)
Theorem push_then_pop_round_trip c wtx now now' order :
  cache c !! WrappedTx.key wtx = None →
  Z.of_nat (size (cache c)) < staticSize c →
  Pop (Push c wtx now now' order) (WrappedTx.key wtx) =
    (Some (info_of wtx now), c).
Proof.
  intros Hk Hsize. unfold Push.
  rewrite map_size_insert_None by done.
  destruct (Z.gtb_spec (Z.of_nat (S (size (cache c)))) (staticSize c)); [lia|].
  unfold Pop. simpl. rewrite lookup_insert_eq, delete_insert_id by done.
  by destruct c.
Qed.

(** X8. With a clock that does not run backwards, [Push] keeps the record it
    stores whenever the cache has room for it or holds, under another key,
    a record evicted strictly earlier. *)
Theorem push_keeps_new_record c wtx now now' order :
  let m := <[WrappedTx.key wtx := info_of wtx now]> (cache c) in
  visits m order → now ≤ now' →
  (Z.of_nat (size m) ≤ staticSize c ∨
   ∃ k' info', cache c !! k' = Some info' ∧ k' ≠ WrappedTx.key wtx ∧
               EvictedTxInfo.timeEvicted info' < now) →
  Get (Push c wtx now now' order) (WrappedTx.key wtx) = Some (info_of wtx now).
Proof.
  intros m Hv Hclock Hroom. unfold Push, Get. fold m.
  destruct (Z.gtb_spec (Z.of_nat (size m)) (staticSize c)) as [Hgt|Hle]; simpl;
    [|apply lookup_insert_eq].
  destruct Hroom as [?|(k' & info' & Hk' & Hne & Hold)]; [lia|].
  destruct (scan_oldest_spec order (WrappedTx.key wtx) now') as (_ & Hall & Hsrc).
  assert ((k', info') ∈ order) as Hin.
  { apply (visits_elem m); [done|]. unfold m. by rewrite lookup_insert_ne. }
  specialize (Hall _ _ Hin).
  rewrite lookup_delete_ne; [apply lookup_insert_eq|].
  intros Heq. destruct Hsrc as [Hstart|(info & Hin' & Ht)].
  - rewrite Hstart in Hall. simpl in Hall. lia.
  - rewrite Heq in Hin'. apply (visits_elem m) in Hin'; [|done].
    unfold m in Hin'. rewrite lookup_insert_eq in Hin'.
    inversion Hin' as [Hinfo]. rewrite <- Hinfo in Ht. simpl in Ht. lia.
Qed.

(** X9. With a clock that does not run backwards, a [Push] that overflows a
    cache in which every record under another key was evicted strictly
    later drops the record it has just stored: what is left is the cache
    without the pushed key.  So it is for every [Push] into an empty cache
    of capacity 0. *)
Theorem push_drops_own_record c wtx now now' order :
  let m := <[WrappedTx.key wtx := info_of wtx now]> (cache c) in
  visits m order → now ≤ now' →
  staticSize c < Z.of_nat (size m) →
  (∀ k' info', cache c !! k' = Some info' → k' ≠ WrappedTx.key wtx →
               now < EvictedTxInfo.timeEvicted info') →
  cache (Push c wtx now now' order) = delete (WrappedTx.key wtx) (cache c) ∧
  Has (Push c wtx now now' order) (WrappedTx.key wtx) = false.
Proof.
  intros m Hv Hclock Hover Hnewer.
  assert (cache (Push c wtx now now' order) = delete (WrappedTx.key wtx) (cache c))
    as Hc; [|split; [done|]].
  - unfold Push. fold m.
    destruct (Z.gtb_spec (Z.of_nat (size m)) (staticSize c)); [|lia]. simpl.
    destruct (scan_oldest_spec order (WrappedTx.key wtx) now') as (_ & Hall & Hsrc).
    assert ((scan_oldest order (WrappedTx.key wtx, now')).1 = WrappedTx.key wtx)
      as ->; [|apply delete_insert_eq].
    destruct Hsrc as [->|(info & Hin & Ht)]; [done|].
    destruct (decide ((scan_oldest order (WrappedTx.key wtx, now')).1
                      = WrappedTx.key wtx)) as [|Hne]; [done|].
    assert ((WrappedTx.key wtx, info_of wtx now) ∈ order) as Hown.
    { apply (visits_elem m); [done|]. apply lookup_insert_eq. }
    specialize (Hall _ _ Hown). simpl in Hall.
    apply (visits_elem m) in Hin; [|done]. unfold m in Hin.
    rewrite lookup_insert_ne in Hin by done.
    specialize (Hnewer _ _ Hin Hne). lia.
  - unfold Has. rewrite Hc, lookup_delete_eq.
    apply bool_decide_eq_false_2. by intros [? ?].
Qed.

Lemma Prune_lookup c limit order k :
  visits (cache c) order →
  cache (Prune c limit order) !! k =
    match cache c !! k with
    | Some info =>
        if Before (EvictedTxInfo.timeEvicted info) limit then None else Some info
    | None => None
    end.
Proof.
  intros Hv. unfold Prune. simpl.
  destruct (cache c !! k) as [info|] eqn:Hk.
  - destruct (Before _ _) eqn:Hb.
    + eapply prune_fold_hit; [|exact Hb]. by apply (visits_elem (cache c)).
    + rewrite prune_fold_miss; [done|]. intros info' Hin.
      apply (visits_elem (cache c)) in Hin; [|done]. congruence.
  - by apply prune_fold_none.
Qed.

(** X10. What [Prune] leaves does not depend on the order in which the
    loop visits the map. *)
Theorem prune_any_order c limit order1 order2 :
  visits (cache c) order1 → visits (cache c) order2 →
  Prune c limit order1 = Prune c limit order2.
Proof.
  intros Hv1 Hv2.
  assert (cache (Prune c limit order1) = cache (Prune c limit order2)) as Hc.
  { apply map_eq. intros k. by rewrite !Prune_lookup. }
  unfold Prune in *. simpl in Hc. by rewrite Hc.
Qed.

(** X11. Pruning with one limit and then with another leaves what pruning
    once with the later of the two limits leaves; pruning twice with the
    same limit is pruning once. *)
Theorem prune_twice_is_prune_later c limit1 limit2 order1 order2 order :
  visits (cache c) order1 →
  visits (cache (Prune c limit1 order1)) order2 →
  visits (cache c) order →
  Prune (Prune c limit1 order1) limit2 order2 =
    Prune c (Z.max limit1 limit2) order.
Proof.
  intros Hv1 Hv2 Hv.
  assert (cache (Prune (Prune c limit1 order1) limit2 order2) =
          cache (Prune c (Z.max limit1 limit2) order)) as Hc.
  { apply map_eq. intros k. rewrite !Prune_lookup by done.
    destruct (cache c !! k) as [info|]; [|done]. unfold Before.
    destruct (Z.ltb_spec (EvictedTxInfo.timeEvicted info) limit1),
             (Z.ltb_spec (EvictedTxInfo.timeEvicted info) limit2),
             (Z.ltb_spec (EvictedTxInfo.timeEvicted info) (Z.max limit1 limit2));
      try done; lia. }
  unfold Prune in *. simpl in *. by rewrite Hc.
Qed.
End More.

(** A cache that holds key 1: [Pop] of key 1 and of the absent key 2. *)
Lemma pop_returns_and_deletes_witness :
  let tx k := WrappedTx.mk k 5 7 "alice" 100 in
  let c := {| staticSize := 2; cache := {[1%positive := info_of (tx 1%positive) 10]} |} in
  (Pop c 1%positive).1 = Some (info_of (tx 1%positive) 10) ∧
  Get (Pop c 1%positive).2 1%positive = None ∧
  Pop c 2%positive = (None, c).
Proof.
  intros tx c.
  destruct (pop_returns_and_deletes c 1%positive) as (Hret & Hgone & _).
  destruct (pop_returns_and_deletes c 2%positive) as (_ & _ & _ & _ & _ & Habsent).
  split; [exact Hret|]. split; [exact Hgone|]. apply Habsent. reflexivity.
Defined.

(** A cache of capacity 2 that holds key 1: key 2 pushed and popped. *)
Lemma push_then_pop_round_trip_witness :
  let tx k := WrappedTx.mk k 5 7 "alice" 100 in
  let c := {| staticSize := 2; cache := {[1%positive := info_of (tx 1%positive) 10]} |} in
  Pop (Push c (tx 2%positive) 20 21 []) 2%positive =
    (Some (info_of (tx 2%positive) 20), c).
Proof.
  intros tx c. apply (push_then_pop_round_trip c (tx 2%positive) 20 21 []).
  - reflexivity.
  - vm_compute. reflexivity.
Defined.

(** A full cache of capacity 1 whose record is older than the push. *)
Lemma push_keeps_new_record_witness :
  let tx k := WrappedTx.mk k 5 7 "alice" 100 in
  let c := {| staticSize := 1; cache := {[1%positive := info_of (tx 1%positive) 10]} |} in
  let order := [(2%positive, info_of (tx 2%positive) 20);
                (1%positive, info_of (tx 1%positive) 10)] in
  Get (Push c (tx 2%positive) 20 21 order) 2%positive =
    Some (info_of (tx 2%positive) 20).
Proof.
  intros tx c order. apply (push_keeps_new_record c (tx 2%positive) 20 21 order).
  - unfold visits. vm_compute. reflexivity.
  - lia.
  - right. exists 1%positive, (info_of (tx 1%positive) 10).
    split; [reflexivity|]. split; [discriminate|]. simpl. lia.
Defined.

(** A full cache of capacity 1 whose record is newer than the push, and an
    empty cache of capacity 0. *)
Lemma push_drops_own_record_witness :
  let tx k := WrappedTx.mk k 5 7 "alice" 100 in
  let c := {| staticSize := 1; cache := {[1%positive := info_of (tx 1%positive) 30]} |} in
  let order := [(2%positive, info_of (tx 2%positive) 20);
                (1%positive, info_of (tx 1%positive) 30)] in
  Has (Push c (tx 2%positive) 20 21 order) 2%positive = false ∧
  Has (Push (NewEvictedTxCache 0) (tx 2%positive) 20 21
         [(2%positive, info_of (tx 2%positive) 20)]) 2%positive = false.
Proof.
  intros tx c order. split.
  - apply (push_drops_own_record c (tx 2%positive) 20 21 order).
    + unfold visits. vm_compute. reflexivity.
    + lia.
    + vm_compute. reflexivity.
    + intros k' info' Hk' Hne. simpl in Hk'.
      apply lookup_singleton_Some in Hk' as [_ <-]. simpl. lia.
  - apply (push_drops_own_record (NewEvictedTxCache 0) (tx 2%positive) 20 21
             [(2%positive, info_of (tx 2%positive) 20)]).
    + unfold visits. vm_compute. reflexivity.
    + lia.
    + vm_compute. reflexivity.
    + intros k' info' Hk'. simpl in Hk'. by rewrite lookup_empty in Hk'.
Defined.

(** Records evicted at 10 and 20, visited in either order. *)
Lemma prune_any_order_witness :
  let tx k := WrappedTx.mk k 5 7 "alice" 100 in
  let c := {| staticSize := 2;
              cache := <[2%positive := info_of (tx 2%positive) 20]>
                         {[1%positive := info_of (tx 1%positive) 10]} |} in
  Prune c 15 [(2%positive, info_of (tx 2%positive) 20);
              (1%positive, info_of (tx 1%positive) 10)] =
  Prune c 15 [(1%positive, info_of (tx 1%positive) 10);
              (2%positive, info_of (tx 2%positive) 20)].
Proof.
  intros tx c. apply (prune_any_order c 15).
  - unfold visits. vm_compute. reflexivity.
  - unfold visits. vm_compute. apply perm_swap.
Defined.

Lemma prune_twice_is_prune_later_witness :
  let tx k := WrappedTx.mk k 5 7 "alice" 100 in
  let c := {| staticSize := 2;
              cache := <[2%positive := info_of (tx 2%positive) 20]>
                         {[1%positive := info_of (tx 1%positive) 10]} |} in
  let order := [(2%positive, info_of (tx 2%positive) 20);
                (1%positive, info_of (tx 1%positive) 10)] in
  Prune (Prune c 15 order) 12 [(2%positive, info_of (tx 2%positive) 20)] =
  Prune c (Z.max 15 12) order.
Proof.
  intros tx c order.
  apply (prune_twice_is_prune_later c 15 12 order
           [(2%positive, info_of (tx 2%positive) 20)] order).
  - unfold visits. vm_compute. reflexivity.
  - unfold visits. vm_compute. reflexivity.
  - unfold visits. vm_compute. reflexivity.
Defined.

End EvictedTxCacheSpec.

(** * Properties of SeenTxSet *)
Module SeenTxSetSpec.
Import SeenTxSet.

Section Props.
Context {TxKey : Type} `{Countable TxKey}.
Implicit Types (s : t TxKey) (k : TxKey) (p : uint16).
Implicit Types (seenSet : timestampedPeerSet).

(** ** Peer maps *)
Lemma only_peer (m : gmap uint16 bool) p :
  size m = 1%nat → m !! p = Some true → m = {[p := true]}.
Proof.
  intros Hsize Hp.
  assert (dom m = {[p]}) as Hdom.
  { rewrite <- size_dom in Hsize.
    apply size_1_elem_of in Hsize as [q Hq]. apply leibniz_equiv in Hq.
    assert (p ∈ dom m) as Hin by (apply elem_of_dom; eauto).
    rewrite Hq in Hin |- *. apply elem_of_singleton in Hin. by subst. }
  apply dom_singleton_inv_L in Hdom as [b ->].
  rewrite lookup_singleton_eq in Hp. by inversion Hp.
Qed.

(** ** The peer 0 is never recorded *)
Lemma prune_fold_sub limit order (m : gmap TxKey timestampedPeerSet) k seenSet :
  foldl (λ m (e : TxKey * timestampedPeerSet),
           if Before (time e.2) limit then delete e.1 m else m) m order !! k
    = Some seenSet →
  m !! k = Some seenSet.
Proof.
  revert m. induction order as [|[k' r] order IH]; intros m; [done|].
  simpl. intros Hl%IH. destruct (Before _ _); [|done].
  apply lookup_delete_Some in Hl. tauto.
Qed.

Lemma reachable_no_zero s : reachable s → no_zero s.
Proof.
  induction 1 as [|s k p now _ IH|s k order _ IH _|s k _ IH|s k p _ IH
                 |s limit order _ IH _|s _ IH]; intros k' r; simpl.
  - by rewrite lookup_empty.
  - unfold Add. destruct (N.eqb_spec p 0) as [|Hp]; [apply IH|].
    destruct (set s !! k) as [seenSet|] eqn:Hk; simpl;
      rewrite lookup_insert; case_decide; subst; try apply IH.
    + intros [= <-]. simpl. rewrite lookup_insert_ne by done. by apply (IH k').
    + intros [= <-]. simpl. by apply lookup_singleton_ne.
  - unfold Pop. destruct (set s !! k) as [seenSet|] eqn:Hk; [|apply IH].
    destruct order as [|peer order]; [apply IH|]. simpl.
    rewrite lookup_insert. case_decide; subst; [|apply IH].
    intros [= <-]. simpl. rewrite lookup_delete. case_decide; [done|].
    by apply (IH k').
  - intros Hl. apply lookup_delete_Some in Hl as [_ Hl]. by apply (IH k').
  - unfold Remove. destruct (set s !! k) as [seenSet|] eqn:Hk; [|apply IH].
    destruct (size (peers seenSet) =? 1)%nat; simpl.
    + intros Hl. apply lookup_delete_Some in Hl as [_ Hl]. by apply (IH k').
    + rewrite lookup_insert. case_decide; subst; [|apply IH].
      intros [= <-]. simpl. rewrite lookup_delete. case_decide; [done|].
      by apply (IH k').
  - intros Hl%prune_fold_sub. by apply (IH k').
  - by rewrite lookup_empty.
Qed.

(** C7. [Add(key, 0)] changes nothing: the state is the one before, so
    [Get(key)] is as before (absent when there was no record), and, 0 never
    being recorded, [Has(key', 0)] is false for every key. *)
Theorem add_zero_peer_ignored s k now :
  reachable s →
  Add s k 0%N now = s ∧
  Get (Add s k 0%N now) k = Get s k ∧
  (set s !! k = None → Get (Add s k 0%N now) k = None) ∧
  (∀ k', Has (Add s k 0%N now) k' 0%N = false).
Proof.
  intros Hr. assert (Add s k 0%N now = s) as -> by done.
  split; [done|]. split; [done|]. split.
  - intros Hk. unfold Get. by rewrite Hk.
  - intros k'. unfold Has. destruct (set s !! k') as [seenSet|] eqn:Hk'; [|done].
    by rewrite (reachable_no_zero s Hr k' seenSet Hk').
Qed.

(** C8. [Remove(key, peer)] leaves the state as it is when there is no
    record for the key; deletes the whole record when its peer map has
    exactly one entry; otherwise deletes the entry of the named peer and
    keeps the other peers and the timestamp.  So, for peers [p1 ≠ p2], both
    not 0: after [Add(key, p1)], [Add(key, p2)], [Remove(key, p1)], peer
    [p2] is recorded and [p1] is not, and, when the key had no record
    before, a further [Remove(key, p2)] deletes the record. *)
Theorem remove_peer_cases s k :
  (∀ p, set s !! k = None → Remove s k p = s) ∧
  (∀ p seenSet, set s !! k = Some seenSet → size (peers seenSet) = 1%nat →
     set (Remove s k p) = delete k (set s) ∧ Get (Remove s k p) k = None) ∧
  (∀ p seenSet, set s !! k = Some seenSet → size (peers seenSet) ≠ 1%nat →
     set (Remove s k p) =
       <[k := {| peers := delete p (peers seenSet); time := time seenSet |}]> (set s) ∧
     (∀ q, q ≠ p → Has (Remove s k p) k q = Has s k q) ∧
     Has (Remove s k p) k p = false) ∧
  (∀ p1 p2 t1 t2, p1 ≠ 0%N → p2 ≠ 0%N → p1 ≠ p2 →
     let s3 := Remove (Add (Add s k p1 t1) k p2 t2) k p1 in
     Has s3 k p2 = true ∧ Has s3 k p1 = false ∧
     (set s !! k = None → Get (Remove s3 k p2) k = None)).
Proof.
  split; [|split; [|split]].
  - intros p Hk. unfold Remove. by rewrite Hk.
  - intros p seenSet Hk Hsize. unfold Remove, Get. rewrite Hk, Hsize. simpl.
    split; [done|]. by rewrite lookup_delete_eq.
  - intros p seenSet Hk Hsize. unfold Remove, Has. rewrite Hk.
    destruct (Nat.eqb_spec (size (peers seenSet)) 1); [done|]. simpl.
    split; [done|]. rewrite lookup_insert_eq. simpl. split.
    + intros q Hq. by rewrite lookup_delete_ne.
    + by rewrite lookup_delete_eq.
  - intros p1 p2 t1 t2 Hp1 Hp2 Hne s3.
    assert (∃ m : gmap uint16 bool, ∃ t,
              set (Add (Add s k p1 t1) k p2 t2) =
                <[k := {| peers := <[p2 := true]> (<[p1 := true]> m); time := t |}]> (set s) ∧
              (set s !! k = None → m = ∅)) as (m & t & Hs2 & Hm).
    { unfold Add. destruct (N.eqb_spec p1 0); [done|].
      destruct (N.eqb_spec p2 0); [done|].
      destruct (set s !! k) as [seenSet|] eqn:Hk; simpl;
        rewrite lookup_insert_eq, insert_insert_eq.
      - exists (peers seenSet), (time seenSet). done.
      - exists ∅, t1. done. }
    assert (size (<[p2 := true]> (<[p1 := true]> m)) ≠ 1%nat) as Hsize.
    { intros Hone.
      assert (size (delete p1 (<[p2 := true]> (<[p1 := true]> m))) = 0%nat) as Hz.
      { rewrite map_size_delete_Some, Hone; [done|].
        rewrite lookup_insert_ne, lookup_insert_eq by done. eauto. }
      apply map_size_empty_inv in Hz.
      assert (delete p1 (<[p2 := true]> (<[p1 := true]> m)) !! p2 = Some true) as Hl.
      { by rewrite lookup_delete_ne, lookup_insert_eq. }
      by rewrite Hz, lookup_empty in Hl. }
    assert (set s3 =
              <[k := {| peers := delete p1 (<[p2 := true]> (<[p1 := true]> m));
                        time := t |}]> (set s)) as Hs3.
    { unfold s3, Remove. rewrite Hs2, lookup_insert_eq. simpl.
      destruct (Nat.eqb_spec (size (<[p2 := true]> (<[p1 := true]> m))) 1);
        [done|]. simpl. by rewrite insert_insert_eq. }
    unfold Has. rewrite Hs3, lookup_insert_eq. simpl.
    rewrite lookup_delete_ne, lookup_insert_eq, lookup_delete_eq by done.
    split; [done|]. split; [done|]. intros Hk. rewrite (Hm Hk) in Hs3.
    unfold Remove, Get. rewrite Hs3, lookup_insert_eq. simpl.
    rewrite delete_insert_ne, delete_insert_eq by done.
    rewrite delete_empty, insert_empty, map_size_singleton. simpl.
    by rewrite lookup_delete_eq.
Qed.

(** C3, as far as the code goes.  A [Remove] of the last peer of a key
    destroys the record: [Get] is absent afterwards and [Len] is one less.
    A [Pop] of the last peer returns it and keeps the record, with no peer
    and the timestamp it had: [Get] returns the empty set and [Len] is as
    before. *)
Theorem last_peer_remove_destroys_pop_keeps s k p seenSet :
  set s !! k = Some seenSet →
  size (peers seenSet) = 1%nat → Has s k p = true →
  (Get (Remove s k p) k = None ∧ Len (Remove s k p) = Len s - 1) ∧
  (∀ order, visits_peers (peers seenSet) order →
     (Pop s k order).1 = p ∧
     Get (Pop s k order).2 k = Some ∅ ∧
     Len (Pop s k order).2 = Len s ∧
     set (Pop s k order).2 !! k = Some {| peers := ∅; time := time seenSet |}).
Proof.
  intros Hk Hsize Hhas. unfold Has in Hhas. rewrite Hk in Hhas.
  destruct (peers seenSet !! p) as [[|]|] eqn:Hp; try done.
  pose proof (only_peer _ _ Hsize Hp) as Hpeers. split.
  - unfold Remove, Get, Len. rewrite Hk, Hsize. simpl.
    rewrite lookup_delete_eq. split; [done|].
    rewrite map_size_delete_Some by eauto.
    assert (size (set s) ≠ 0%nat); [|lia].
    apply map_size_non_empty_iff. intros Hs. by rewrite Hs, lookup_empty in Hk.
  - intros order Hv. unfold visits_peers in Hv.
    rewrite Hpeers, map_to_list_singleton in Hv. simpl in Hv.
    apply Permutation_singleton_r in Hv as ->.
    unfold Pop, Get, Len. rewrite Hk. simpl. rewrite lookup_insert_eq. simpl.
    rewrite Hpeers, delete_singleton_eq, dom_empty_L.
    split; [done|]. split; [done|]. split; [|done].
    by rewrite map_size_insert_Some by eauto.
Qed.
End Props.

(** Two peers popped one after the other, then a third [Pop]. *)
Example pop_until_empty :
  let s := Add (Add (NewSeenTxSet (TxKey:=positive)) 1%positive 7%N 10) 1%positive 9%N 20 in
  let r1 := Pop s 1%positive [9%N; 7%N] in
  let r2 := Pop r1.2 1%positive [7%N] in
  let r3 := Pop r2.2 1%positive [] in
  (r1.1, r2.1, r3.1) = (9%N, 7%N, 0%N) ∧ Len r3.2 = 1.
Proof. split; reflexivity. Qed.

(** Peer 0 added to a set that holds peer 7. *)
Lemma add_zero_peer_ignored_witness :
  let s := Add (NewSeenTxSet (TxKey:=positive)) 1%positive 7%N 10 in
  Add s 1%positive 0%N 20 = s ∧
  Get (Add s 1%positive 0%N 20) 1%positive = Get s 1%positive ∧
  Has (Add s 1%positive 0%N 20) 1%positive 0%N = false.
Proof.
  intros s.
  destruct (add_zero_peer_ignored s 1%positive 20) as (Hs & Hget & _ & Hhas).
  - apply reach_add, reach_new.
  - split; [exact Hs|]. split; [exact Hget|exact (Hhas 1%positive)].
Defined.

(** Key 1 with no record, with the single peer 7, and with the peers 7
    and 9 removed one after the other. *)
Lemma remove_peer_cases_witness :
  let s0 := NewSeenTxSet (TxKey:=positive) in
  let s1 := Add s0 1%positive 7%N 10 in
  let s2 := Add s1 1%positive 9%N 20 in
  let s3 := Remove s2 1%positive 7%N in
  Remove s0 1%positive 7%N = s0 ∧
  Get (Remove s1 1%positive 9%N) 1%positive = None ∧
  (Has (Remove s2 1%positive 7%N) 1%positive 9%N = Has s2 1%positive 9%N ∧
   Has (Remove s2 1%positive 7%N) 1%positive 7%N = false) ∧
  (Has s3 1%positive 9%N = true ∧ Has s3 1%positive 7%N = false ∧
   Get (Remove s3 1%positive 9%N) 1%positive = None).
Proof.
  intros s0 s1 s2 s3. split; [|split; [|split]].
  - destruct (remove_peer_cases s0 1%positive) as (Habsent & _).
    apply Habsent. reflexivity.
  - destruct (remove_peer_cases s1 1%positive) as (_ & Hone & _).
    destruct (Hone 9%N {| peers := {[7%N := true]}; time := 10 |}) as [_ Hget].
    + reflexivity.
    + reflexivity.
    + exact Hget.
  - destruct (remove_peer_cases s2 1%positive) as (_ & _ & Hmore & _).
    destruct (Hmore 7%N {| peers := <[9%N := true]> {[7%N := true]}; time := 10 |})
      as (_ & Hothers & Hgone).
    + reflexivity.
    + vm_compute. discriminate.
    + split; [apply Hothers; discriminate|exact Hgone].
  - destruct (remove_peer_cases s0 1%positive) as (_ & _ & _ & Hrun).
    destruct (Hrun 7%N 9%N 10 20) as (H9 & H7 & Hget); [done..|].
    split; [exact H9|]. split; [exact H7|]. apply Hget. reflexivity.
Defined.

(** Key 1 with the single peer 7: [Pop] returns 7 and the record stays. *)
Lemma pop_last_peer_keeps_record :
  ¬ (∀ (s : t positive) (k : positive) (p : uint16) seenSet order,
       set s !! k = Some seenSet →
       size (peers seenSet) = 1%nat → Has s k p = true →
       visits_peers (peers seenSet) order →
       Get (Pop s k order).2 k = None ∧ Len (Pop s k order).2 = Len s - 1).
Proof.
  intros Hevery.
  destruct (Hevery (Add NewSeenTxSet 1%positive 7%N 10) 1%positive 7%N
              {| peers := {[7%N := true]}; time := 10 |} [7%N]) as [Hget _].
  - reflexivity.
  - reflexivity.
  - reflexivity.
  - unfold visits_peers. vm_compute. reflexivity.
  - vm_compute in Hget. discriminate Hget.
Qed.

Lemma last_peer_remove_destroys_pop_keeps_witness :
  let s := Add (NewSeenTxSet (TxKey:=positive)) 1%positive 7%N 10 in
  (Get (Remove s 1%positive 7%N) 1%positive = None ∧
   Len (Remove s 1%positive 7%N) = Len s - 1) ∧
  ((Pop s 1%positive [7%N]).1 = 7%N ∧
   Get (Pop s 1%positive [7%N]).2 1%positive = Some ∅ ∧
   Len (Pop s 1%positive [7%N]).2 = Len s).
Proof.
  intros s.
  destruct (last_peer_remove_destroys_pop_keeps s 1%positive 7%N
              {| peers := {[7%N := true]}; time := 10 |}) as [Hrem Hpop].
  - reflexivity.
  - reflexivity.
  - reflexivity.
  - split; [exact Hrem|].
    destruct (Hpop [7%N]) as (Hp & Hget & Hlen & _).
    + unfold visits_peers. vm_compute. reflexivity.
    + split; [exact Hp|]. split; [exact Hget|exact Hlen].
Defined.

(** ** Further properties: lookups after [Add], [Pop], [Prune], [RemoveKey] *)
Section More.
Context {TxKey : Type} `{Countable TxKey}.
Implicit Types (s : t TxKey) (k : TxKey) (p q : uint16).
Implicit Types (seenSet : timestampedPeerSet).

Lemma reachable_peers_true s : reachable s → peers_true s.
Proof.
  induction 1 as [|s k p now _ IH|s k order _ IH _|s k _ IH|s k p _ IH
                 |s limit order _ IH _|s _ IH]; intros k' r p' b; simpl.
  - by rewrite lookup_empty.
  - unfold Add. destruct (N.eqb_spec p 0) as [|Hp]; [apply IH|].
    destruct (set s !! k) as [seenSet|] eqn:Hk; simpl;
      rewrite lookup_insert; case_decide; subst; try apply IH.
    + intros [= <-]. simpl. rewrite lookup_insert. case_decide; [congruence|].
      by apply (IH k').
    + intros [= <-]. simpl. rewrite lookup_singleton. case_decide; congruence.
  - unfold Pop. destruct (set s !! k) as [seenSet|] eqn:Hk; [|apply IH].
    destruct order as [|peer order]; [apply IH|]. simpl.
    rewrite lookup_insert. case_decide; subst; [|apply IH].
    intros [= <-]. simpl. rewrite lookup_delete. case_decide; [done|].
    by apply (IH k').
  - intros Hl. apply lookup_delete_Some in Hl as [_ Hl]. by apply (IH k').
  - unfold Remove. destruct (set s !! k) as [seenSet|] eqn:Hk; [|apply IH].
    destruct (size (peers seenSet) =? 1)%nat; simpl.
    + intros Hl. apply lookup_delete_Some in Hl as [_ Hl]. by apply (IH k').
    + rewrite lookup_insert. case_decide; subst; [|apply IH].
      intros [= <-]. simpl. rewrite lookup_delete. case_decide; [done|].
      by apply (IH k').
  - intros Hl%prune_fold_sub. by apply (IH k').
  - by rewrite lookup_empty.
Qed.

(** X12. In every state the set can reach, [Has] and [Get] agree: a peer is
    in the copy [Get] returns for a key exactly when [Has] is true for the
    key and the peer. *)
Theorem get_has_agree s k p :
  reachable s →
  Has s k p = true ↔ ∃ X, Get s k = Some X ∧ p ∈ X.
Proof.
  intros Hr. unfold Has, Get. destruct (set s !! k) as [seenSet|] eqn:Hk.
  - split.
    + intros Hp. exists (dom (peers seenSet)). split; [done|].
      apply elem_of_dom. destruct (peers seenSet !! p); [eauto|done].
    + intros (X & [= <-] & [b Hb]%elem_of_dom). rewrite Hb. simpl.
      by apply (reachable_peers_true s Hr k seenSet p b).
  - split; [done|]. by intros (X & ? & _).
Qed.

(** X13. [Add] of a peer other than 0 records it: [Has] is true for the key
    and the peer afterwards and as before for every other key or peer, and
    the number of keys grows by one exactly when the key had no record. *)
Theorem add_records_peer s k p now :
  p ≠ 0%N →
  Has (Add s k p now) k p = true ∧
  (∀ k' p', (k', p') ≠ (k, p) → Has (Add s k p now) k' p' = Has s k' p') ∧
  Len (Add s k p now) = Len s + match Get s k with Some _ => 0 | None => 1 end.
Proof.
  intros Hp. unfold Add, Has, Get, Len.
  destruct (N.eqb_spec p 0) as [|_]; [done|].
  destruct (set s !! k) as [seenSet|] eqn:Hk; simpl.
  - rewrite !lookup_insert_eq. simpl. rewrite lookup_insert_eq.
    split; [done|]. split.
    + intros k' p' Hne. rewrite lookup_insert. case_decide; subst; [|done].
      rewrite Hk. simpl. rewrite lookup_insert_ne; [done|congruence].
    + rewrite map_size_insert_Some by eauto. lia.
  - rewrite !lookup_insert_eq. simpl. rewrite lookup_singleton_eq.
    split; [done|]. split.
    + intros k' p' Hne. rewrite lookup_insert. case_decide; subst; [|done].
      rewrite Hk. simpl. rewrite lookup_singleton_ne; [done|congruence].
    + rewrite map_size_insert_None by done. lia.
Qed.


Abbreviation seen_prune_body limit :=
  (λ (m : gmap TxKey timestampedPeerSet) (e : TxKey * timestampedPeerSet),
     if Before (time e.2) limit then delete e.1 m else m).

Lemma seen_prune_fold_none limit order (m : gmap TxKey timestampedPeerSet) k :
  m !! k = None → foldl (seen_prune_body limit) m order !! k = None.
Proof.
  revert m. induction order as [|[k' r] order IH]; intros m Hm; [done|].
  simpl. apply IH. destruct (Before _ _); [|done].
  rewrite lookup_delete. by case_decide.
Qed.

Lemma seen_prune_fold_hit limit order (m : gmap TxKey timestampedPeerSet) k r :
  (k, r) ∈ order → Before (time r) limit = true →
  foldl (seen_prune_body limit) m order !! k = None.
Proof.
  revert m. induction order as [|[k' r'] order IH]; intros m Hin Hb.
  - by apply elem_of_nil in Hin.
  - simpl. apply elem_of_cons in Hin as [[= <- <-]|Hin]; [|by apply IH].
    rewrite Hb. apply seen_prune_fold_none, lookup_delete_eq.
Qed.

Lemma seen_prune_fold_miss limit order (m : gmap TxKey timestampedPeerSet) k :
  (∀ r, (k, r) ∈ order → Before (time r) limit = false) →
  foldl (seen_prune_body limit) m order !! k = m !! k.
Proof.
  revert m. induction order as [|[k' r'] order IH]; intros m Hall; [done|].
  simpl. rewrite IH.
  - destruct (Before _ _) eqn:Hb; [|done].
    rewrite lookup_delete_ne; [done|]. intros <-.
    rewrite Hall in Hb; [done|]. apply elem_of_cons. by left.
  - intros r Hin. apply Hall. apply elem_of_cons. by right.
Qed.

(** X15. [Prune(limit)] removes every record created strictly before
    [limit], whatever peers it holds, and no other: a record created at
    [limit] or later stays with its peers and its time, in whatever order
    the loop visits the map. *)
Theorem seen_prune_removes_exactly_older s limit order k :
  order ≡ₚ map_to_list (set s) →
  set (Prune s limit order) !! k =
    match set s !! k with
    | Some seenSet => if Before (time seenSet) limit then None else Some seenSet
    | None => None
    end.
Proof.
  intros Hv.
  assert (∀ r, (k, r) ∈ order ↔ set s !! k = Some r) as Hin.
  { intros r. rewrite Hv. apply elem_of_map_to_list. }
  unfold Prune. simpl. destruct (set s !! k) as [seenSet|] eqn:Hk.
  - destruct (Before _ _) eqn:Hb.
    + eapply seen_prune_fold_hit; [|exact Hb]. by apply Hin.
    + rewrite seen_prune_fold_miss; [done|]. intros r Hr.
      apply Hin in Hr. congruence.
  - by apply seen_prune_fold_none.
Qed.

(** X16. Adding a peer does not keep a record alive: a record created
    strictly before [limit] is removed by [Prune(limit)] also when a peer
    was added to it at [limit] or later. *)
Theorem add_does_not_extend_lifetime s k q now limit order seenSet :
  set s !! k = Some seenSet → Before (time seenSet) limit = true →
  order ≡ₚ map_to_list (set (Add s k q now)) →
  Get (Prune (Add s k q now) limit order) k = None ∧
  (∀ p, Has (Prune (Add s k q now) limit order) k p = false).
Proof.
  intros Hk Hb Hv.
  assert (set (Prune (Add s k q now) limit order) !! k = None) as Hgone.
  { assert (∀ r, (k, r) ∈ order ↔ set (Add s k q now) !! k = Some r) as Hin.
    { intros r. rewrite Hv. apply elem_of_map_to_list. }
    assert (∃ r, set (Add s k q now) !! k = Some r ∧ time r = time seenSet)
      as (r & Hr & Ht).
    { unfold Add. destruct (q =? 0)%N; [eauto|].
      rewrite Hk. simpl. rewrite lookup_insert_eq. eauto. }
    unfold Prune. simpl. eapply seen_prune_fold_hit; [by apply Hin|].
    by rewrite Ht. }
  unfold Get, Has. by rewrite Hgone.
Qed.

(** ** [Pop] *)
Lemma Pop_some s k seenSet order :
  set s !! k = Some seenSet → visits_peers (peers seenSet) order →
  (order = [] ∧ peers seenSet = ∅ ∧ Pop s k order = (0%N, s)) ∨
  (∃ p rest,
     order = p :: rest ∧ is_Some (peers seenSet !! p) ∧
     Pop s k order =
       (p, {| set := <[k := {| peers := delete p (peers seenSet);
                                time := time seenSet |}]> (set s) |})).
Proof.
  intros Hk Hv. unfold visits_peers in Hv. unfold Pop. rewrite Hk.
  destruct order as [|p rest].
  - left. split; [done|]. split; [|done].
    apply Permutation_nil_l in Hv. symmetry in Hv.
    apply fmap_nil_inv in Hv. by apply map_to_list_empty_iff.
  - right. exists p, rest. split; [done|]. split; [|done].
    assert (p ∈ (map_to_list (peers seenSet)).*1) as Hp.
    { rewrite <- Hv. apply elem_of_cons. by left. }
    apply list_elem_of_fmap in Hp as ([p' b] & -> & Hp).
    apply elem_of_map_to_list in Hp. simpl. eauto.
Qed.

(** X17. In every state the set can reach, [Pop] returns 0 exactly when the
    key has no record or its record holds no peer, and then changes
    nothing; otherwise it returns a peer recorded for the key and removes
    that peer only, the record and every other key staying. *)
Theorem pop_takes_a_recorded_peer s k order :
  reachable s →
  (∀ seenSet, set s !! k = Some seenSet → visits_peers (peers seenSet) order) →
  let r := Pop s k order in
  (r.1 = 0%N ↔ Get s k = None ∨ Get s k = Some ∅) ∧
  (r.1 = 0%N → r.2 = s) ∧
  (r.1 ≠ 0%N →
     Has s k r.1 = true ∧ Has r.2 k r.1 = false ∧
     (∀ q, q ≠ r.1 → Has r.2 k q = Has s k q) ∧
     (∀ k' q, k' ≠ k → Has r.2 k' q = Has s k' q) ∧
     Len r.2 = Len s).
Proof.
  intros Hr Hv r. unfold r.
  destruct (set s !! k) as [seenSet|] eqn:Hk.
  - destruct (Pop_some s k seenSet order Hk (Hv _ eq_refl))
      as [(-> & Hempty & ->)|(p & rest & -> & [b Hb] & ->)]; simpl.
    + unfold Get. rewrite Hk, Hempty, dom_empty_L. split; [|split]; try done.
      split; [by right|done].
    + assert (b = true) as -> by (by apply (reachable_peers_true s Hr k seenSet p)).
      assert (p ≠ 0%N) as Hp0.
      { intros ->. by rewrite (reachable_no_zero s Hr k seenSet Hk) in Hb. }
      unfold Get, Has, Len. rewrite Hk. simpl. split; [|split; [done|]].
      * split; [done|]. intros [?|[= Hdom]]; [done|].
        assert (p ∈ dom (peers seenSet)) as Hin by (apply elem_of_dom; eauto).
        rewrite Hdom in Hin. by apply elem_of_empty in Hin.
      * intros _. rewrite Hb, lookup_insert_eq. simpl.
        rewrite lookup_delete_eq. split; [done|]. split; [done|]. split.
        { intros q Hq. by rewrite lookup_delete_ne. }
        split.
        { intros k' q Hk'. by rewrite lookup_insert_ne. }
        by rewrite map_size_insert_Some by eauto.
  - unfold Pop, Get. rewrite Hk. simpl. split; [|split]; try done.
    split; [by left|done].
Qed.

Lemma Pop_dom s k seenSet order :
  set s !! k = Some seenSet → visits_peers (peers seenSet) order →
  (dom (peers seenSet) = ∅ ∧ Pop s k order = (0%N, s)) ∨
  (∃ seenSet',
     (Pop s k order).1 ∈ dom (peers seenSet) ∧
     set (Pop s k order).2 !! k = Some seenSet' ∧
     dom (peers seenSet') = dom (peers seenSet) ∖ {[(Pop s k order).1]}).
Proof.
  intros Hk Hv.
  destruct (Pop_some s k seenSet order Hk Hv)
    as [(_ & Hempty & Hr)|(p & rest & _ & Hp & Hr)]; rewrite Hr; simpl.
  - left. by rewrite Hempty, dom_empty_L.
  - right. eexists. split; [by apply elem_of_dom|].
    split; [apply lookup_insert_eq|]. simpl. apply dom_delete_L.
Qed.

(** X18. A key whose record holds exactly the two peers [p1] and [p2]: the
    first [Pop] returns one of them, the second the other, the third 0;
    the record is still there, with no peer. *)
Theorem pop_twice_then_zero s k seenSet p1 p2 order1 order2 order3 :
  set s !! k = Some seenSet → dom (peers seenSet) = {[p1; p2]} → p1 ≠ p2 →
  visits_peers (peers seenSet) order1 →
  let r1 := Pop s k order1 in
  (∀ seenSet1, set r1.2 !! k = Some seenSet1 → visits_peers (peers seenSet1) order2) →
  let r2 := Pop r1.2 k order2 in
  (∀ seenSet2, set r2.2 !! k = Some seenSet2 → visits_peers (peers seenSet2) order3) →
  let r3 := Pop r2.2 k order3 in
  ((r1.1 = p1 ∧ r2.1 = p2) ∨ (r1.1 = p2 ∧ r2.1 = p1)) ∧
  r3.1 = 0%N ∧ Get r3.2 k = Some ∅.
Proof.
  intros Hk Hdom Hne Hv1 r1 Hv2 r2 Hv3 r3.
  destruct (Pop_dom s k seenSet order1 Hk Hv1)
    as [[Hempty _]|(seenSet1 & Hp1 & Hk1 & Hdom1)].
  { rewrite Hdom in Hempty. exfalso.
    assert (p1 ∈ (∅ : gset uint16)) as Hin; [|by apply elem_of_empty in Hin].
    rewrite <- Hempty. apply elem_of_union. left. by apply elem_of_singleton. }
  fold r1 in Hp1, Hk1, Hdom1. rewrite Hdom in Hp1, Hdom1.
  destruct (Pop_dom r1.2 k seenSet1 order2 Hk1 (Hv2 _ Hk1))
    as [[Hempty _]|(seenSet2 & Hp2 & Hk2 & Hdom2)].
  { rewrite Hdom1 in Hempty. exfalso.
    apply elem_of_union in Hp1 as [Hp1|Hp1]; apply elem_of_singleton in Hp1.
    - assert (p2 ∈ (∅ : gset uint16)) as Hin; [|by apply elem_of_empty in Hin].
      rewrite <- Hempty, Hp1. apply elem_of_difference.
      split; [apply elem_of_union; right; by apply elem_of_singleton|].
      intros ?%elem_of_singleton. congruence.
    - assert (p1 ∈ (∅ : gset uint16)) as Hin; [|by apply elem_of_empty in Hin].
      rewrite <- Hempty, Hp1. apply elem_of_difference.
      split; [apply elem_of_union; left; by apply elem_of_singleton|].
      by intros ?%elem_of_singleton. }
  fold r2 in Hp2, Hk2, Hdom2. rewrite Hdom1 in Hp2, Hdom2.
  apply elem_of_difference in Hp2 as [Hp2 Hp2'].
  rewrite elem_of_singleton in Hp2'.
  apply elem_of_union in Hp1 as [Hp1|Hp1]; apply elem_of_singleton in Hp1;
    apply elem_of_union in Hp2 as [Hp2|Hp2]; apply elem_of_singleton in Hp2;
    try congruence.
  - assert (dom (peers seenSet2) = ∅) as Hd2.
    { rewrite Hdom2, Hp1, Hp2. apply set_eq. intros x.
      rewrite !elem_of_difference, elem_of_union, !elem_of_singleton.
      split; [tauto|]. by intros ?%elem_of_empty. }
    destruct (Pop_dom r2.2 k seenSet2 order3 Hk2 (Hv3 _ Hk2))
      as [[_ Hr3]|(? & Hp3 & _)].
    + fold r3 in Hr3. rewrite Hr3. simpl. split; [by left|]. split; [done|].
      unfold Get. by rewrite Hk2, Hd2.
    + rewrite Hd2 in Hp3. by apply elem_of_empty in Hp3.
  - assert (dom (peers seenSet2) = ∅) as Hd2.
    { rewrite Hdom2, Hp1, Hp2. apply set_eq. intros x.
      rewrite !elem_of_difference, elem_of_union, !elem_of_singleton.
      split; [tauto|]. by intros ?%elem_of_empty. }
    destruct (Pop_dom r2.2 k seenSet2 order3 Hk2 (Hv3 _ Hk2))
      as [[_ Hr3]|(? & Hp3 & _)].
    + fold r3 in Hr3. rewrite Hr3. simpl. split; [by right|]. split; [done|].
      unfold Get. by rewrite Hk2, Hd2.
    + rewrite Hd2 in Hp3. by apply elem_of_empty in Hp3.
Qed.

(** X19. A record that [Pop] has emptied is out of reach of [Remove]: after
    [Pop] has taken the only peer of a key, [Remove] of any peer for that
    key changes nothing, [Get] returns the empty set and the key is still
    counted; [RemoveKey] deletes the record. *)
Theorem remove_keeps_emptied_record s k seenSet order q :
  set s !! k = Some seenSet → size (peers seenSet) = 1%nat →
  visits_peers (peers seenSet) order →
  let s' := (Pop s k order).2 in
  Remove s' k q = s' ∧ Get (Remove s' k q) k = Some ∅ ∧
  Len (Remove s' k q) = Len s ∧
  Get (RemoveKey s' k) k = None.
Proof.
  intros Hk Hsize Hv s'.
  assert (∃ p b, peers seenSet = {[p := b]}) as (p & b & Hpeers).
  { pose proof Hsize as Hd. rewrite <- size_dom in Hd.
    apply size_1_elem_of in Hd as [p Hp]. apply leibniz_equiv in Hp.
    apply dom_singleton_inv_L in Hp as [b ->]. eauto. }
  assert (set s' = <[k := {| peers := ∅; time := time seenSet |}]> (set s)) as Hs'.
  { unfold s'. destruct (Pop_some s k seenSet order Hk Hv)
      as [(_ & Hempty & _)|(p' & rest & _ & [b' Hp'] & ->)].
    - rewrite Hempty, map_size_empty in Hsize. lia.
    - simpl. rewrite Hpeers in Hp' |- *.
      apply lookup_singleton_Some in Hp' as [-> _].
      by rewrite delete_singleton_eq. }
  assert (Remove s' k q = s') as Hrem.
  { unfold Remove. rewrite Hs', lookup_insert_eq. simpl.
    rewrite map_size_empty. simpl. rewrite delete_empty, insert_insert_eq.
    destruct s' as [m]. simpl in Hs'. by rewrite Hs'. }
  rewrite Hrem. split; [done|]. unfold Get, Len, RemoveKey. simpl.
  rewrite lookup_delete_eq, Hs', lookup_insert_eq. simpl.
  rewrite dom_empty_L, map_size_insert_Some by eauto. done.
Qed.

(** X20. [RemoveKey] undoes the first [Add] for a key: after a peer other
    than 0 has been added for a key without record, [RemoveKey] gives back
    the set as it was.  In any case the key has no record afterwards and
    the other keys are as before. *)
Theorem remove_key_undoes_first_add s k p now :
  (p ≠ 0%N → set s !! k = None → RemoveKey (Add s k p now) k = s) ∧
  Get (RemoveKey s k) k = None ∧
  (∀ q, Has (RemoveKey s k) k q = false) ∧
  (∀ k' q, k' ≠ k → Has (RemoveKey s k) k' q = Has s k' q) ∧
  Len (RemoveKey s k) = Len s - match Get s k with Some _ => 1 | None => 0 end.
Proof.
  split; [|split; [|split; [|split]]].
  - intros Hp Hk. unfold Add, RemoveKey.
    destruct (N.eqb_spec p 0) as [|_]; [done|]. rewrite Hk. simpl.
    rewrite delete_insert_id by done. by destruct s.
  - unfold Get, RemoveKey. simpl. by rewrite lookup_delete_eq.
  - intros q. unfold Has, RemoveKey. simpl. by rewrite lookup_delete_eq.
  - intros k' q Hk'. unfold Has, RemoveKey. simpl. by rewrite lookup_delete_ne.
  - unfold Len, Get, RemoveKey. simpl. rewrite map_size_delete.
    destruct (set s !! k) eqn:Hk; simpl; [|lia].
    assert (size (set s) ≠ 0%nat); [|lia].
    apply map_size_non_empty_iff. intros Hs. by rewrite Hs, lookup_empty in Hk.
Qed.
End More.

(** Key 1 with the peers 7 and 9, recorded at time 10. *)
Lemma get_has_agree_witness :
  let s := Add (Add (NewSeenTxSet (TxKey:=positive)) 1%positive 7%N 10) 1%positive 9%N 20 in
  Has s 1%positive 7%N = true ↔ ∃ X, Get s 1%positive = Some X ∧ 7%N ∈ X.
Proof.
  intros s. apply (get_has_agree s 1%positive 7%N).
  apply reach_add, reach_add, reach_new.
Defined.

Lemma add_records_peer_witness :
  let s := Add (NewSeenTxSet (TxKey:=positive)) 1%positive 7%N 10 in
  Has (Add s 1%positive 9%N 20) 1%positive 9%N = true ∧
  Has (Add s 1%positive 9%N 20) 1%positive 7%N = Has s 1%positive 7%N ∧
  Len (Add s 1%positive 9%N 20) = Len s + 0 ∧
  Len (Add s 2%positive 9%N 20) = Len s + 1.
Proof.
  intros s.
  destruct (add_records_peer s 1%positive 9%N 20) as (Hhas & Hother & Hlen);
    [discriminate|].
  destruct (add_records_peer s 2%positive 9%N 20) as (_ & _ & Hlen');
    [discriminate|].
  split; [exact Hhas|]. split; [apply Hother; discriminate|].
  split; [exact Hlen|exact Hlen'].
Defined.


(** Keys 1 and 2 recorded at times 10 and 20, pruned with limit 15. *)
Lemma seen_prune_removes_exactly_older_witness :
  let s := Add (Add (NewSeenTxSet (TxKey:=positive)) 1%positive 7%N 10) 2%positive 9%N 20 in
  let order := [(2%positive, {| peers := {[9%N := true]}; time := 20 |});
                (1%positive, {| peers := {[7%N := true]}; time := 10 |})] in
  set (Prune s 15 order) !! 1%positive = None ∧
  set (Prune s 15 order) !! 2%positive =
    Some {| peers := {[9%N := true]}; time := 20 |}.
Proof.
  intros s order. split.
  - apply (seen_prune_removes_exactly_older s 15 order 1%positive).
    vm_compute. reflexivity.
  - apply (seen_prune_removes_exactly_older s 15 order 2%positive).
    vm_compute. reflexivity.
Defined.

(** Key 1 recorded at time 10, peer 9 added at time 20, limit 15. *)
Lemma add_does_not_extend_lifetime_witness :
  let s := Add (NewSeenTxSet (TxKey:=positive)) 1%positive 7%N 10 in
  let order := [(1%positive, {| peers := <[9%N := true]> {[7%N := true]}; time := 10 |})] in
  Get (Prune (Add s 1%positive 9%N 20) 15 order) 1%positive = None.
Proof.
  intros s order.
  destruct (add_does_not_extend_lifetime s 1%positive 9%N 20 15 order
              {| peers := {[7%N := true]}; time := 10 |}) as [Hget _].
  - reflexivity.
  - reflexivity.
  - vm_compute. reflexivity.
  - exact Hget.
Defined.

Lemma pop_takes_a_recorded_peer_witness :
  let s := Add (NewSeenTxSet (TxKey:=positive)) 1%positive 7%N 10 in
  let r := Pop s 1%positive [7%N] in
  (r.1 = 0%N ↔ Get s 1%positive = None ∨ Get s 1%positive = Some ∅) ∧
  (Has s 1%positive r.1 = true ∧ Has r.2 1%positive r.1 = false ∧ Len r.2 = Len s).
Proof.
  intros s r.
  destruct (pop_takes_a_recorded_peer s 1%positive [7%N]) as (Hzero & _ & Hpeer).
  - apply reach_add, reach_new.
  - intros seenSet [= <-]. unfold visits_peers. vm_compute. reflexivity.
  - split; [exact Hzero|].
    destruct Hpeer as (Hhas & Hgone & _ & _ & Hlen); [discriminate|].
    split; [exact Hhas|]. split; [exact Hgone|exact Hlen].
Defined.

(** Key 1 with the peers 7 and 9, popped three times. *)
Lemma pop_twice_then_zero_witness :
  let s := Add (Add (NewSeenTxSet (TxKey:=positive)) 1%positive 7%N 10) 1%positive 9%N 20 in
  let r1 := Pop s 1%positive [9%N; 7%N] in
  let r2 := Pop r1.2 1%positive [7%N] in
  let r3 := Pop r2.2 1%positive [] in
  ((r1.1 = 7%N ∧ r2.1 = 9%N) ∨ (r1.1 = 9%N ∧ r2.1 = 7%N)) ∧
  r3.1 = 0%N ∧ Get r3.2 1%positive = Some ∅.
Proof.
  intros s.
  apply (pop_twice_then_zero s 1%positive
           {| peers := <[9%N := true]> {[7%N := true]}; time := 10 |}
           7%N 9%N [9%N; 7%N] [7%N] []).
  - reflexivity.
  - reflexivity.
  - discriminate.
  - unfold visits_peers. vm_compute. reflexivity.
  - intros seenSet1 [= <-]. unfold visits_peers. vm_compute. reflexivity.
  - intros seenSet2 [= <-]. unfold visits_peers. vm_compute. reflexivity.
Defined.

Lemma remove_keeps_emptied_record_witness :
  let s := Add (NewSeenTxSet (TxKey:=positive)) 1%positive 7%N 10 in
  let s' := (Pop s 1%positive [7%N]).2 in
  Remove s' 1%positive 7%N = s' ∧ Get (Remove s' 1%positive 7%N) 1%positive = Some ∅ ∧
  Len (Remove s' 1%positive 7%N) = Len s ∧
  Get (RemoveKey s' 1%positive) 1%positive = None.
Proof.
  intros s.
  apply (remove_keeps_emptied_record s 1%positive
           {| peers := {[7%N := true]}; time := 10 |} [7%N] 7%N).
  - reflexivity.
  - reflexivity.
  - unfold visits_peers. vm_compute. reflexivity.
Defined.

Lemma remove_key_undoes_first_add_witness :
  let s := Add (NewSeenTxSet (TxKey:=positive)) 1%positive 7%N 10 in
  RemoveKey (Add s 2%positive 9%N 20) 2%positive = s ∧
  Get (RemoveKey s 1%positive) 1%positive = None ∧
  Len (RemoveKey s 1%positive) = Len s - 1.
Proof.
  intros s.
  destruct (remove_key_undoes_first_add s 2%positive 9%N 20) as (Hundo & _).
  destruct (remove_key_undoes_first_add s 1%positive 9%N 20)
    as (_ & Hget & _ & _ & Hlen).
  split; [apply Hundo; [discriminate|reflexivity]|].
  split; [exact Hget|exact Hlen].
Defined.

End SeenTxSetSpec.

(** * Reset *)
Section ResetSpec.
Context {TxKey : Type} `{Countable TxKey}.

(** C9. After [Reset()], every query answers as on a new instance of the
    same capacity: [Has] (and the result of [Push]) for the Dedup Cache,
    which is empty again with its capacity unchanged; [Has] and [Get] for
    the Eviction-History Cache; [Has], [Get] and [Len] for the Seen-Set. *)
Theorem reset_answers_as_new :
  (∀ (c : LRUTxCache.t TxKey) k,
     let new := LRUTxCache.NewLRUTxCache (LRUTxCache.staticSize c) in
     LRUTxCache.Has (LRUTxCache.Reset c) k = LRUTxCache.Has new k ∧
     (LRUTxCache.Push (LRUTxCache.Reset c) k).1 = (LRUTxCache.Push new k).1 ∧
     LRUTxCache.staticSize (LRUTxCache.Reset c) = LRUTxCache.staticSize c ∧
     LRUTxCache.cacheMap (LRUTxCache.Reset c) = LRUTxCache.cacheMap new ∧
     GoList.elems (LRUTxCache.list_ (LRUTxCache.Reset c)) =
       GoList.elems (LRUTxCache.list_ new)) ∧
  (∀ (c : EvictedTxCache.t TxKey) k,
     let new := EvictedTxCache.NewEvictedTxCache (EvictedTxCache.staticSize c) in
     EvictedTxCache.Reset c = new ∧
     EvictedTxCache.Has (EvictedTxCache.Reset c) k = EvictedTxCache.Has new k ∧
     EvictedTxCache.Get (EvictedTxCache.Reset c) k = EvictedTxCache.Get new k) ∧
  (∀ (s : SeenTxSet.t TxKey) k p,
     SeenTxSet.Reset s = SeenTxSet.NewSeenTxSet ∧
     SeenTxSet.Has (SeenTxSet.Reset s) k p = SeenTxSet.Has SeenTxSet.NewSeenTxSet k p ∧
     SeenTxSet.Get (SeenTxSet.Reset s) k = SeenTxSet.Get SeenTxSet.NewSeenTxSet k ∧
     SeenTxSet.Len (SeenTxSet.Reset s) = SeenTxSet.Len (SeenTxSet.NewSeenTxSet (TxKey:=TxKey))).
Proof.
  split; [|split].
  - intros c k new. unfold LRUTxCache.Has, LRUTxCache.Push. simpl.
    destruct (LRUTxCache.staticSize c =? 0); [done|].
    rewrite lookup_empty. simpl.
    by destruct (GoList.Len (GoList.Init _) >=? _), (GoList.Len GoList.New >=? _).
  - done.
  - done.
Qed.
End ResetSpec.
